(** * OidcClient: the OIDC sign-in session manager of the viewer front end

    A shallow embedding of [src/frontend/api/OidcClient.ts].  The client keeps
    one credential slot, listens to the five lifecycle events of the
    oidc-client [UserManager], and re-publishes every change on its own
    [onUserStateChanged] event unless the page is the redirect target.

    JavaScript calls are modelled in a completion monad (a call completes
    normally or throws); the mutable object [this], the browser console and
    the browser location are threaded as one explicit state.  Promise
    callbacks are functions of the value the promise settled with. *)

From Stdlib Require Import ZArith List String Bool Lia.
Import ListNotations.
Local Open Scope string_scope.

(** ** JavaScript values and control *)

Module Js.

Record Error : Type := new_Error { message : string }.

(** The completion of a call: a normal return or a thrown error. *)
Inductive Completion (A : Type) : Type :=
| Normal (a : A)
| Throw (e : Error).

Arguments Normal {A} a.
Arguments Throw {A} e.

Definition bind {A B : Type} (c : Completion A) (k : A -> Completion B) : Completion B :=
  match c with
  | Normal a => k a
  | Throw e => Throw e
  end.

(** How a promise of an external collaborator settles. *)
Inductive Settled (A : Type) : Type :=
| Fulfilled (a : A)
| Rejected (e : Error).

Arguments Fulfilled {A} a.
Arguments Rejected {A} e.

(** The state of a promise owned by the client. *)
Inductive PromiseState : Type :=
| Pending
| Resolved
| RejectedWith (e : Error).

(** Numbers are integer-valued; [None] stands for [undefined] in an operand
    and for [NaN] in a result.  [minus a b] is [a - b] of JavaScript. *)
Definition minus (a : Z) (b : option Z) : option Z :=
  match b with
  | Some d => Some (a - d)%Z
  | None => None
  end.

(** The largest time value of a Date, in either direction. *)
Definition maxTime : Z := 8640000000000000.

(** [TimeClip] of the language: a time value out of range, like [NaN], makes
    an invalid date.  A difference of integer-valued doubles that the
    machine rounds is beyond 2^53 and so out of range before and after
    rounding: clipping the exact difference gives the date the machine
    builds. *)
Definition TimeClip (t : option Z) : option Z :=
  match t with
  | Some t => if (Z.abs t <=? maxTime)%Z then Some t else None
  | None => None
  end.

(** A Date: its time value, [None] for an invalid date. *)
Record Date : Type := mkDate { getTime : option Z }.

(** [new Date(value)] *)
Definition new_Date (value : option Z) : Date := mkDate (TimeClip value).

End Js.

Import Js.

Declare Scope js_scope.
Delimit Scope js_scope with js.
Notation "x <- c ;; k" := (bind c (fun x => k))
  (at level 61, c at next level, right associativity) : js_scope.
Local Open Scope js_scope.

(** ** The identity provider's user record (package oidc-client) *)

Module Oidc.

(** Modelled from the spec: the profile claims of the raw provider user
    record (the type [Profile] of oidc-client is not part of the sources).
    Every claim of the JSON profile may be absent. *)
Record Profile : Type := mkProfile {
  given_name : option string;
  family_name : option string;
  email : option string;
  sub : option string;
  org_name : option string;
  org : option string;
  ultimate_site : option string;
  usage_country_iso : option string
}.

(** Modelled from the spec: the raw provider-issued user record (the type
    [User] of oidc-client is not part of the sources): access token string,
    expiry timestamp, validity duration, expiry flag and profile claims.
    [expires_in] is read with a non-null assertion in the source, so it may
    be [undefined]. *)
Record User : Type := mkUser {
  access_token : string;
  expires_at : Z;
  expires_in : option Z;
  expired : bool;
  profile : Profile
}.

End Oidc.

(** ** The application's credential (package imodeljs-clients) *)

Module Clients.

(** Modelled from the spec: the identity claims of a Credential (the class
    [UserProfile] of imodeljs-clients is not part of the sources); the
    constructor stores its eight arguments as they are. *)
Record UserProfile : Type := new_UserProfile {
  firstName : option string;
  lastName : option string;
  email : option string;
  userId : option string;
  organization : option string;
  organizationId : option string;
  ultimateSite : option string;
  usageCountryIso : option string
}.

(** Modelled from the spec: the Credential (the class [AccessToken] of
    imodeljs-clients is not part of the sources): the opaque bearer token
    string, the identity claims and the validity window. *)
Record AccessToken : Type := mkAccessToken {
  jwt : string;
  userProfile : UserProfile;
  startsAt : Date;
  expiresAt : Date
}.

Definition fromJsonWebTokenString (jwt : string) (userProfile : UserProfile)
    (startsAt expiresAt : Date) : AccessToken :=
  mkAccessToken jwt userProfile startsAt expiresAt.

End Clients.

Import Clients.

(** ** The credential factory *)

(** [createAccessToken] of the source.  The non-null assertions are erased
    by the compiler: nothing is checked at run time. *)
Definition createAccessToken (user : Oidc.User) : Completion AccessToken :=
  let startsAt := new_Date (minus (Oidc.expires_at user) (Oidc.expires_in user)) in
  let expiresAt := new_Date (Some (Oidc.expires_at user)) in
  let userProfile :=
    new_UserProfile
      (Oidc.given_name (Oidc.profile user))
      (Oidc.family_name (Oidc.profile user))
      (Oidc.email (Oidc.profile user))
      (Oidc.sub (Oidc.profile user))
      (Oidc.org_name (Oidc.profile user))
      (Oidc.org (Oidc.profile user))
      (Oidc.ultimate_site (Oidc.profile user))
      (Oidc.usage_country_iso (Oidc.profile user)) in
  Normal (fromJsonWebTokenString (Oidc.access_token user) userProfile startsAt expiresAt).

(** ** The protocol engine (class UserManager of oidc-client) *)

(** The client's five handlers are arrow-function properties of [this]; the
    engine holds them by reference.  They are named here by the event
    signature they are registered under. *)
Inductive UserLoadedCallback : Type :=
| cb_onUserLoaded.

Inductive ErrorCallback : Type :=
| cb_onError.

Inductive VoidCallback : Type :=
| cb_onUserExpired
| cb_onUserUnloaded
| cb_onUserSignedOut.

Definition VoidCallback_eqb (a b : VoidCallback) : bool :=
  match a, b with
  | cb_onUserExpired, cb_onUserExpired => true
  | cb_onUserUnloaded, cb_onUserUnloaded => true
  | cb_onUserSignedOut, cb_onUserSignedOut => true
  | _, _ => false
  end.

Module Engine.

Record UserManagerSettings : Type := mkSettings {
  authority : string;
  client_id : string;
  redirect_uri : string;
  silent_redirect_uri : string;
  response_type : string;
  scope : string
}.

(** Modelled from the spec: the engine attachment surface (the class
    [UserManager] of oidc-client is not part of the sources): one list of
    subscribed callbacks for each of the five lifecycle events. *)
Record UserManagerEvents : Type := mkEvents {
  userLoaded : list UserLoadedCallback;
  silentRenewError : list ErrorCallback;
  accessTokenExpired : list VoidCallback;
  userUnloaded : list VoidCallback;
  userSignedOut : list VoidCallback
}.

(** The commands, the query and the callback-completion entry points the
    client calls on the engine. *)
Inductive Call : Type :=
| getUser
| signinRedirect
| signoutRedirect
| signinRedirectCallback
| signoutRedirectCallback.

Definition Call_eqb (a b : Call) : bool :=
  match a, b with
  | getUser, getUser => true
  | signinRedirect, signinRedirect => true
  | signoutRedirect, signoutRedirect => true
  | signinRedirectCallback, signinRedirectCallback => true
  | signoutRedirectCallback, signoutRedirectCallback => true
  | _, _ => false
  end.

(** Modelled from the spec: the engine object, as far as the client
    observes it: its configuration, its subscriptions and the calls it has
    received, oldest first. *)
Record UserManager : Type := mkUserManager {
  settings : UserManagerSettings;
  events : UserManagerEvents;
  calls : list Call
}.

(** [new UserManager(settings)]; [failure] is the error the constructor
    throws, if it throws. *)
Definition new_UserManager (failure : option Error) (settings : UserManagerSettings)
    : Completion UserManager :=
  match failure with
  | Some e => Throw e
  | None => Normal (mkUserManager settings (mkEvents [] [] [] [] []) [])
  end.

(** Subscribing appends the callback; unsubscribing removes its first
    occurrence and does nothing when it is not subscribed. *)
Fixpoint removeHandler {A : Type} (eqb : A -> A -> bool) (cb : A) (l : list A) : list A :=
  match l with
  | [] => []
  | x :: l' => if eqb x cb then l' else x :: removeHandler eqb cb l'
  end.

Definition on_events (f : UserManagerEvents -> UserManagerEvents) (um : UserManager)
    : UserManager :=
  mkUserManager (settings um) (f (events um)) (calls um).

Definition addUserLoaded (cb : UserLoadedCallback) : UserManager -> UserManager :=
  on_events (fun ev => mkEvents (userLoaded ev ++ [cb]) (silentRenewError ev)
    (accessTokenExpired ev) (userUnloaded ev) (userSignedOut ev)).

Definition addSilentRenewError (cb : ErrorCallback) : UserManager -> UserManager :=
  on_events (fun ev => mkEvents (userLoaded ev) (silentRenewError ev ++ [cb])
    (accessTokenExpired ev) (userUnloaded ev) (userSignedOut ev)).

Definition addAccessTokenExpired (cb : VoidCallback) : UserManager -> UserManager :=
  on_events (fun ev => mkEvents (userLoaded ev) (silentRenewError ev)
    (accessTokenExpired ev ++ [cb]) (userUnloaded ev) (userSignedOut ev)).

Definition addUserUnloaded (cb : VoidCallback) : UserManager -> UserManager :=
  on_events (fun ev => mkEvents (userLoaded ev) (silentRenewError ev)
    (accessTokenExpired ev) (userUnloaded ev ++ [cb]) (userSignedOut ev)).

Definition addUserSignedOut (cb : VoidCallback) : UserManager -> UserManager :=
  on_events (fun ev => mkEvents (userLoaded ev) (silentRenewError ev)
    (accessTokenExpired ev) (userUnloaded ev) (userSignedOut ev ++ [cb])).

Definition removeUserLoaded (cb : UserLoadedCallback) : UserManager -> UserManager :=
  on_events (fun ev => mkEvents (removeHandler (fun _ _ => true) cb (userLoaded ev))
    (silentRenewError ev) (accessTokenExpired ev) (userUnloaded ev) (userSignedOut ev)).

Definition removeSilentRenewError (cb : ErrorCallback) : UserManager -> UserManager :=
  on_events (fun ev => mkEvents (userLoaded ev)
    (removeHandler (fun _ _ => true) cb (silentRenewError ev))
    (accessTokenExpired ev) (userUnloaded ev) (userSignedOut ev)).

Definition removeAccessTokenExpired (cb : VoidCallback) : UserManager -> UserManager :=
  on_events (fun ev => mkEvents (userLoaded ev) (silentRenewError ev)
    (removeHandler VoidCallback_eqb cb (accessTokenExpired ev))
    (userUnloaded ev) (userSignedOut ev)).

Definition removeUserUnloaded (cb : VoidCallback) : UserManager -> UserManager :=
  on_events (fun ev => mkEvents (userLoaded ev) (silentRenewError ev)
    (accessTokenExpired ev)
    (removeHandler VoidCallback_eqb cb (userUnloaded ev)) (userSignedOut ev)).

Definition removeUserSignedOut (cb : VoidCallback) : UserManager -> UserManager :=
  on_events (fun ev => mkEvents (userLoaded ev) (silentRenewError ev)
    (accessTokenExpired ev) (userUnloaded ev)
    (removeHandler VoidCallback_eqb cb (userSignedOut ev))).

(** The engine records a call made on it. *)
Definition call (c : Call) (um : UserManager) : UserManager :=
  mkUserManager (settings um) (events um) (calls um ++ [c]).

End Engine.

Import Engine.

(** ** Globals read by the client *)

Record Location : Type := mkLocation {
  protocol : string;
  host : string;
  pathname : string
}.

(** The two keys the client reads with [Config.App.getString]; both are
    taken as set. *)
Record Config : Type := mkConfig {
  imjs_test_oidc_redirect_path : string;
  imjs_test_oidc_client_id : string
}.

(** [window.location] and [Config.App] at the moment a piece of code runs. *)
Record Globals : Type := mkGlobals {
  window_location : Location;
  Config_App : Config
}.

(** ** The client object and the effects it has *)

(** One delivery of [onUserStateChanged.raiseEvent]: the token handed to the
    listeners, and what the [accessToken] getter returns while they run. *)
Record Raised : Type := mkRaised {
  delivered : option AccessToken;
  accessToken_then : option AccessToken
}.

(** The private fields of the client, the deliveries of its public event,
    and its effects on the browser: lines written with [console.error] and
    targets of [window.location.replace], oldest first. *)
Record OidcClient : Type := mkOidcClient {
  _userManager : option UserManager;
  _accessToken : option AccessToken;
  _ready : PromiseState;
  onUserStateChanged : list Raised;
  console_error : list Error;
  location_replace : list string
}.

Definition set_userManager (um : option UserManager) (this : OidcClient) : OidcClient :=
  mkOidcClient um (_accessToken this) (_ready this) (onUserStateChanged this)
    (console_error this) (location_replace this).

Definition set_accessToken (token : option AccessToken) (this : OidcClient) : OidcClient :=
  mkOidcClient (_userManager this) token (_ready this) (onUserStateChanged this)
    (console_error this) (location_replace this).

Definition resolve (this : OidcClient) : OidcClient :=
  mkOidcClient (_userManager this) (_accessToken this)
    (match _ready this with Pending => Resolved | settled => settled end)
    (onUserStateChanged this) (console_error this) (location_replace this).

(** A method call on [this._userManager], which the caller knows is set. *)
Definition on_userManager (f : UserManager -> UserManager) (this : OidcClient) : OidcClient :=
  set_userManager (option_map f (_userManager this)) this.

Definition log_error (e : Error) (this : OidcClient) : OidcClient :=
  mkOidcClient (_userManager this) (_accessToken this) (_ready this)
    (onUserStateChanged this) (console_error this ++ [e]) (location_replace this).

Definition replace_location (url : string) (this : OidcClient) : OidcClient :=
  mkOidcClient (_userManager this) (_accessToken this) (_ready this)
    (onUserStateChanged this) (console_error this) (location_replace this ++ [url]).

(** The getters of the class. *)
Definition accessToken (this : OidcClient) : option AccessToken := _accessToken this.

Definition ready (this : OidcClient) : PromiseState := _ready this.

Definition isLoading (g : Globals) : bool :=
  String.eqb (pathname (window_location g)) (imjs_test_oidc_redirect_path (Config_App g)).

(** [onUserStateChanged.raiseEvent(token)]: the listeners run now. *)
Definition raiseEvent (token : option AccessToken) (this : OidcClient) : OidcClient :=
  mkOidcClient (_userManager this) (_accessToken this) (_ready this)
    (onUserStateChanged this ++ [mkRaised token (accessToken this)])
    (console_error this) (location_replace this).

(** ** The handlers *)

Definition _onUserStateChanged (g : Globals) (token : option AccessToken) (_reason : string)
    (this : OidcClient) : Completion OidcClient :=
  let this := set_accessToken token this in
  if isLoading g then Normal this
  else Normal (raiseEvent token this).

Definition _onUserLoaded (g : Globals) (user : Oidc.User) (this : OidcClient)
    : Completion OidcClient :=
  token <- createAccessToken user ;;
  _onUserStateChanged g (Some token) "loaded" this.

Definition _onUserExpired (g : Globals) (this : OidcClient) : Completion OidcClient :=
  _onUserStateChanged g None "expired" this.

Definition _onUserUnloaded (g : Globals) (this : OidcClient) : Completion OidcClient :=
  _onUserStateChanged g None "unloaded" this.

Definition _onUserSignedOut (g : Globals) (this : OidcClient) : Completion OidcClient :=
  _onUserStateChanged g None "signed out" this.

Definition _onError (g : Globals) (e : Error) (this : OidcClient) : Completion OidcClient :=
  let this := log_error e this in
  _onUserStateChanged g None (message e) this.

(** ** Setup *)

(** [createOidcSettings]; [discoverUrl] is how the discovery call settles.
    A rejected discovery makes the [await] throw, so the promise of the
    async function is rejected with the same error. *)
Definition createOidcSettings (g : Globals) (discoverUrl : Settled string)
    : Settled UserManagerSettings :=
  match discoverUrl with
  | Rejected e => Rejected e
  | Fulfilled authorityUrl =>
      let oidcPath := imjs_test_oidc_redirect_path (Config_App g) in
      let clientId := imjs_test_oidc_client_id (Config_App g) in
      Fulfilled (mkSettings
        authorityUrl
        clientId
        (protocol (window_location g) ++ "//" ++ host (window_location g) ++ oidcPath)
        (protocol (window_location g) ++ "//" ++ host (window_location g) ++ oidcPath)
        "id_token token"
        "openid email profile organization feature_tracking imodelhub rbac-service context-registry-service")
  end.

(** [createUserManager]: the client after the chain has run, and how the
    returned promise settles.  The [then] has no rejection handler, so a
    rejected [createOidcSettings] and a throw inside the callback both
    reject the returned promise.  The promises of [getUser] and of the two
    redirect callbacks settle later: see [getUser_then] and
    [redirectCallback_then]. *)
Definition createUserManager (g : Globals) (discoverUrl : Settled string)
    (failure : option Error) (this : OidcClient)
    : OidcClient * Settled (option UserManager) :=
  match createOidcSettings g discoverUrl with
  | Rejected e => (this, Rejected e)
  | Fulfilled settings =>
      match new_UserManager failure settings with
      | Throw e => (this, Rejected e)
      | Normal um =>
          let this := set_userManager (Some um) this in
          let this := on_userManager (addUserLoaded cb_onUserLoaded) this in
          let this := on_userManager (addSilentRenewError cb_onError) this in
          let this := on_userManager (addAccessTokenExpired cb_onUserExpired) this in
          let this := on_userManager (addUserUnloaded cb_onUserUnloaded) this in
          let this := on_userManager (addUserSignedOut cb_onUserSignedOut) this in
          let this := on_userManager (call getUser) this in
          let this :=
            if isLoading g then
              let this := on_userManager (call signinRedirectCallback) this in
              on_userManager (call signoutRedirectCallback) this
            else this in
          (this, Fulfilled (_userManager this))
      end
  end.

(** The two callbacks given to [getUser().then]. *)
Definition getUser_then (g : Globals) (r : Settled (option Oidc.User)) (this : OidcClient)
    : Completion OidcClient :=
  match r with
  | Fulfilled user =>
      match user with
      | Some user =>
          if negb (Oidc.expired user) then _onUserLoaded g user this
          else _onUserExpired g this
      | None => _onUserExpired g this
      end
  | Rejected e => _onError g e this
  end.

(** The two callbacks given to [signinRedirectCallback().then], and the same
    two given to [signoutRedirectCallback().then]. *)
Definition redirectCallback_then (g : Globals) (r : Settled unit) (this : OidcClient)
    : Completion OidcClient :=
  match r with
  | Fulfilled _ => Normal (replace_location "/" this)
  | Rejected e => _onError g e this
  end.

(** The object as the constructor returns it: the executor of [_ready] has
    called [createUserManager], which waits for the discovery call.  Until
    discovery settles nothing of setup has touched the object. *)
Definition new_OidcClient : OidcClient :=
  mkOidcClient None None Pending [] [] [].

(** The executor of [_ready] after its [await]: [awaited] is how the promise
    of [createUserManager] has settled.  The continuation is a promise job
    of its own, run after the callback of [createUserManager] has returned
    and after the jobs queued before it.  When the awaited promise is
    rejected the async executor stops there: [resolve] is not called, and
    the rejection belongs to the executor's own, unobserved promise. *)
Definition constructor_executor (awaited : Settled (option UserManager))
    (this : OidcClient) : OidcClient :=
  match awaited with
  | Fulfilled _ => resolve this
  | Rejected _ => this
  end.

(** ** The public methods *)

Definition dispose (this : OidcClient) : Completion OidcClient :=
  match _userManager this with
  | None => Normal this
  | Some _ =>
      let this := on_userManager (removeUserLoaded cb_onUserLoaded) this in
      let this := on_userManager (removeSilentRenewError cb_onError) this in
      let this := on_userManager (removeAccessTokenExpired cb_onUserExpired) this in
      let this := on_userManager (removeUserUnloaded cb_onUserUnloaded) this in
      let this := on_userManager (removeUserSignedOut cb_onUserSignedOut) this in
      Normal this
  end.

Definition signIn (this : OidcClient) : Completion OidcClient :=
  match _userManager this with
  | None => Throw (new_Error "OidcClient is not ready to be used yet")
  | Some _ => Normal (on_userManager (call signinRedirect) this)
  end.

Definition signOut (this : OidcClient) : Completion OidcClient :=
  match _userManager this with
  | None => Throw (new_Error "OidcClient is not ready to be used yet")
  | Some _ => Normal (on_userManager (call signoutRedirect) this)
  end.

(** ** Lifecycle events *)

Inductive LifecycleEvent : Type :=
| UserLoaded (user : Oidc.User)
| SilentRenewError (e : Error)
| AccessTokenExpired
| UserUnloaded
| UserSignedOut.

(** The handler [createUserManager] subscribes for each event. *)
Definition handle (g : Globals) (ev : LifecycleEvent) (this : OidcClient)
    : Completion OidcClient :=
  match ev with
  | UserLoaded user => _onUserLoaded g user this
  | SilentRenewError e => _onError g e this
  | AccessTokenExpired => _onUserExpired g this
  | UserUnloaded => _onUserUnloaded g this
  | UserSignedOut => _onUserSignedOut g this
  end.

(** The session manager processing a sequence of events, each with the
    globals at the moment it is handled. *)
Fixpoint process (evs : list (Globals * LifecycleEvent)) (this : OidcClient)
    : Completion OidcClient :=
  match evs with
  | [] => Normal this
  | (g, ev) :: evs => this <- handle g ev this ;; process evs this
  end.

Definition call_UserLoadedCallback (cb : UserLoadedCallback) :=
  match cb with
  | cb_onUserLoaded => _onUserLoaded
  end.

Definition call_ErrorCallback (cb : ErrorCallback) :=
  match cb with
  | cb_onError => _onError
  end.

Definition call_VoidCallback (cb : VoidCallback) :=
  match cb with
  | cb_onUserExpired => _onUserExpired
  | cb_onUserUnloaded => _onUserUnloaded
  | cb_onUserSignedOut => _onUserSignedOut
  end.

(** Calling the subscribed callbacks in subscription order. *)
Fixpoint call_all {Cb : Type} (run : Cb -> OidcClient -> Completion OidcClient)
    (cbs : list Cb) (this : OidcClient) : Completion OidcClient :=
  match cbs with
  | [] => Normal this
  | cb :: cbs => this <- run cb this ;; call_all run cbs this
  end.

(** The engine raising an event: every callback subscribed for it runs.
    Without an engine there is nobody to raise one. *)
Definition raise (g : Globals) (ev : LifecycleEvent) (this : OidcClient)
    : Completion OidcClient :=
  match _userManager this with
  | None => Normal this
  | Some um =>
      match ev with
      | UserLoaded user =>
          call_all (fun cb => call_UserLoadedCallback cb g user) (userLoaded (events um)) this
      | SilentRenewError e =>
          call_all (fun cb => call_ErrorCallback cb g e) (silentRenewError (events um)) this
      | AccessTokenExpired =>
          call_all (fun cb => call_VoidCallback cb g) (accessTokenExpired (events um)) this
      | UserUnloaded =>
          call_all (fun cb => call_VoidCallback cb g) (userUnloaded (events um)) this
      | UserSignedOut =>
          call_all (fun cb => call_VoidCallback cb g) (userSignedOut (events um)) this
      end
  end.

(** ** Lifetimes *)

(** What can happen to a client, apart from its setup: the application
    calls a method, the engine raises an event, or one of the promises
    started by setup settles. *)
Inductive Action : Type :=
| Call_signIn
| Call_signOut
| Call_dispose
| Raise (g : Globals) (ev : LifecycleEvent)
| Settle_getUser (g : Globals) (r : Settled (option Oidc.User))
| Settle_redirectCallback (g : Globals) (r : Settled unit).

(** Promises started by setup exist only once the engine does. *)
Definition perform (a : Action) (this : OidcClient) : Completion OidcClient :=
  match a with
  | Call_signIn => signIn this
  | Call_signOut => signOut this
  | Call_dispose => dispose this
  | Raise g ev => raise g ev this
  | Settle_getUser g r =>
      match _userManager this with
      | None => Normal this
      | Some _ => getUser_then g r this
      end
  | Settle_redirectCallback g r =>
      match _userManager this with
      | None => Normal this
      | Some _ => redirectCallback_then g r this
      end
  end.

(** A throw leaves the client as it was and the run goes on. *)
Definition after (a : Action) (this : OidcClient) : OidcClient :=
  match perform a this with
  | Normal this' => this'
  | Throw _ => this
  end.

Definition run (acts : list Action) (this : OidcClient) : OidcClient :=
  fold_left (fun this a => after a this) acts this.

(** The client while the executor of [_ready] waits at its [await]:
    construction, what happens while discovery is in flight, the one run of
    [createUserManager] when discovery settles, and what happens between
    its callback and the continuation of the [await]. *)
Definition awaiting (before : list Action) (g : Globals) (discoverUrl : Settled string)
    (failure : option Error) (between : list Action) : OidcClient :=
  run between (fst (createUserManager g discoverUrl failure (run before new_OidcClient))).

(** A lifetime: the same, then the continuation of the [await], and what
    happens after. *)
Definition lifetime (before : list Action) (g : Globals) (discoverUrl : Settled string)
    (failure : option Error) (between afterwards : list Action) : OidcClient :=
  run afterwards
    (constructor_executor
       (snd (createUserManager g discoverUrl failure (run before new_OidcClient)))
       (awaiting before g discoverUrl failure between)).

(** ** Sample inputs *)

Definition viewer_config : Config :=
  mkConfig "/signin-oidc" "simple-viewer-app".

(** The application root, and the redirect target of the identity provider. *)
Definition at_root : Globals :=
  mkGlobals (mkLocation "http:" "localhost:3000" "/") viewer_config.

Definition at_redirect : Globals :=
  mkGlobals (mkLocation "http:" "localhost:3000" "/signin-oidc") viewer_config.

Definition full_profile : Oidc.Profile :=
  Oidc.mkProfile (Some "Ada") (Some "Lovelace") (Some "ada@example.org") (Some "u-1815")
    (Some "Analytical Engines") (Some "org-7") (Some "site-1") (Some "GB").

(** A fresh user: valid for 3600 up to 1700000000. *)
Definition fresh_user : Oidc.User :=
  Oidc.mkUser "eyJ.fresh" 1700000000 (Some 3600%Z) false full_profile.


(** A user whose profile has neither a subject id nor an email. *)
Definition nameless_user : Oidc.User :=
  Oidc.mkUser "eyJ.nameless" 1700000000 (Some 3600%Z) false
    (Oidc.mkProfile (Some "Ada") (Some "Lovelace") None None
       (Some "Analytical Engines") (Some "org-7") (Some "site-1") (Some "GB")).

(** A user whose expiry lies one past the range of a Date. *)
Definition far_future_user : Oidc.User :=
  Oidc.mkUser "eyJ.far" 8640000000000001 (Some 3600%Z) false full_profile.

(** A user for whom the engine reports no validity duration. *)
Definition open_ended_user : Oidc.User :=
  Oidc.mkUser "eyJ.open" 1700000000 None false full_profile.

(** ** Vocabulary of the statements *)

(** The credential a lifecycle event carries into the slot. *)
Definition next_token (ev : LifecycleEvent) : Completion (option AccessToken) :=
  match ev with
  | UserLoaded user => token <- createAccessToken user ;; Normal (Some token)
  | _ => Normal None
  end.

(** The client after a transition to [token] under the globals [g]. *)
Definition transition (g : Globals) (token : option AccessToken) (this : OidcClient)
    : OidcClient :=
  if isLoading g then set_accessToken token this
  else raiseEvent token (set_accessToken token this).

(** What an event writes to the console before its transition. *)
Definition logged (ev : LifecycleEvent) (this : OidcClient) : OidcClient :=
  match ev with
  | SilentRenewError e => log_error e this
  | _ => this
  end.

(** Each of the five subscription lists is empty or holds exactly the
    handler setup subscribes there. *)
Definition subscribed_at_most_once (ev : UserManagerEvents) : Prop :=
  (userLoaded ev = [] \/ userLoaded ev = [cb_onUserLoaded]) /\
  (silentRenewError ev = [] \/ silentRenewError ev = [cb_onError]) /\
  (accessTokenExpired ev = [] \/ accessTokenExpired ev = [cb_onUserExpired]) /\
  (userUnloaded ev = [] \/ userUnloaded ev = [cb_onUserUnloaded]) /\
  (userSignedOut ev = [] \/ userSignedOut ev = [cb_onUserSignedOut]).

Definition no_subscription (ev : UserManagerEvents) : Prop :=
  userLoaded ev = [] /\ silentRenewError ev = [] /\ accessTokenExpired ev = [] /\
  userUnloaded ev = [] /\ userSignedOut ev = [].

(** The states a client can be in: those of some lifetime, and those in
    which the executor still waits at its [await].  The object a constructor
    has just returned is the lifetime in which discovery fails and nothing
    else happens. *)
Definition reachable (this : OidcClient) : Prop :=
  (exists before g discoverUrl failure between afterwards,
     this = lifetime before g discoverUrl failure between afterwards) \/
  (exists before g discoverUrl failure between,
     this = awaiting before g discoverUrl failure between).

(** A delivery whose listeners see in the slot what they are handed. *)
Definition coherent (r : Raised) : Prop := delivered r = accessToken_then r.

(** How often the engine has received the call [c]. *)
Definition times (c : Call) (um : UserManager) : nat :=
  List.length (filter (Call_eqb c) (calls um)).

(** What a handler may do to the client: it leaves the engine and the
    readiness signal alone and adds coherent deliveries. *)
Definition handled (this this' : OidcClient) : Prop :=
  _userManager this' = _userManager this /\
  _ready this' = _ready this /\
  exists news,
    onUserStateChanged this' = (onUserStateChanged this ++ news)%list /\
    Forall coherent news.

(** What a step of a lifetime may do to the engine: it stays absent or
    stays attached, is queried no further, and gains no subscription. *)
Definition engine_kept (before after : option UserManager) : Prop :=
  match before, after with
  | None, None => True
  | Some um, Some um' =>
      times getUser um' = times getUser um /\
      (subscribed_at_most_once (events um) -> subscribed_at_most_once (events um'))
  | _, _ => False
  end.

(** *** Vocabulary of the lifetime properties *)

(** The subscriptions setup makes, and none at all. *)
Definition full_subscription : UserManagerEvents :=
  mkEvents [cb_onUserLoaded] [cb_onError] [cb_onUserExpired]
    [cb_onUserUnloaded] [cb_onUserSignedOut].

Definition no_events : UserManagerEvents := mkEvents [] [] [] [] [].

Definition is_dispose (a : Action) : bool :=
  match a with
  | Call_dispose => true
  | _ => false
  end.

(** The redirect commands a run asks of an attached engine, in order. *)
Definition commands (acts : list Action) : list Call :=
  flat_map (fun a =>
    match a with
    | Call_signIn => [signinRedirect]
    | Call_signOut => [signoutRedirect]
    | _ => []
    end) acts.

(** The calls setup itself makes on the engine. *)
Definition setup_calls (g : Globals) : list Call :=
  getUser :: if isLoading g then [signinRedirectCallback; signoutRedirectCallback] else [].

(** The client as the callback of a successful [createUserManager] leaves
    it: engine attached with the settings [st], the five handlers
    subscribed, the calls of setup made, readiness still pending. *)
Definition attached (g : Globals) (st : UserManagerSettings) : OidcClient :=
  mkOidcClient (Some (mkUserManager st full_subscription (setup_calls g)))
    None Pending [] [] [].

(** One navigation for each redirect callback of a run that is fulfilled. *)
Definition navigations (acts : list Action) : list string :=
  flat_map (fun a =>
    match a with
    | Settle_redirectCallback _ (Fulfilled _) => ["/"]
    | _ => []
    end) acts.

(** The deliveries a sequence of events makes: one for each event handled
    off the redirect path, in order. *)
Definition deliveries_of (evs : list (Globals * LifecycleEvent)) : list Raised :=
  flat_map (fun gev =>
    if isLoading (fst gev) then []
    else match next_token (snd gev) with
         | Normal token => [mkRaised token token]
         | Throw _ => []
         end) evs.

(** The errors a sequence of events carries, in order. *)
Definition errors_of (evs : list (Globals * LifecycleEvent)) : list Error :=
  flat_map (fun gev =>
    match snd gev with
    | SilentRenewError e => [e]
    | _ => []
    end) evs.

(** The raw users the engine hands to the client in a run: those of the
    user-loaded events it raises, and the unexpired one the initial query
    answers with. *)
Definition supplied (acts : list Action) : list Oidc.User :=
  flat_map (fun a =>
    match a with
    | Raise _ (UserLoaded user) => [user]
    | Settle_getUser _ (Fulfilled (Some user)) =>
        if Oidc.expired user then [] else [user]
    | _ => []
    end) acts.

(** Absence, or the Credential the factory makes from one of [users]. *)
Definition made_from (users : list Oidc.User) (token : option AccessToken) : Prop :=
  match token with
  | Some c => exists user, In user users /\ createAccessToken user = Normal c
  | None => True
  end.

(** The slot and every delivery hold values made from [users] only. *)
Definition all_from (users : list Oidc.User) (this : OidcClient) : Prop :=
  made_from users (_accessToken this) /\
  Forall (fun r => made_from users (delivered r)) (onUserStateChanged this).

(** What a handler or a rejected promise may do besides [handled]: no
    navigation, and no value in the slot or in a delivery but one made from
    the users it was given, [new], or already there. *)
Definition quiet (new : list Oidc.User) (this this' : OidcClient) : Prop :=
  location_replace this' = location_replace this /\
  forall users, incl new users -> all_from users this -> all_from users this'.

(** ** Properties of the credential factory *)

Lemma createAccessToken_Normal (user : Oidc.User) :
  exists c, createAccessToken user = Normal c.
Proof. eexists. reflexivity. Qed.

(** C6, as the code has it.  The factory is a function of the record's
    token, expiry, duration and profile alone (the expiry flag is not read)
    and never fails.  The token and the eight claims are those of the
    record.  The expiry is the date of the record's expiry and the start is
    the date of the expiry minus the duration: the window is
    [expiry - duration, expiry] when the record has a duration and both
    ends lie within the range of a Date; an end out of range, and the start
    of a record without duration, is an invalid date. *)
Theorem createAccessToken_deterministic_window (user : Oidc.User) :
  exists c,
    createAccessToken user = Normal c /\
    (forall user',
       Oidc.access_token user' = Oidc.access_token user ->
       Oidc.expires_at user' = Oidc.expires_at user ->
       Oidc.expires_in user' = Oidc.expires_in user ->
       Oidc.profile user' = Oidc.profile user ->
       createAccessToken user' = Normal c) /\
    getTime (startsAt c) =
      match Oidc.expires_in user with
      | Some duration =>
          if (Z.abs (Oidc.expires_at user - duration) <=? maxTime)%Z
          then Some (Oidc.expires_at user - duration)%Z
          else None
      | None => None
      end /\
    getTime (expiresAt c) =
      (if (Z.abs (Oidc.expires_at user) <=? maxTime)%Z
       then Some (Oidc.expires_at user)
       else None) /\
    jwt c = Oidc.access_token user /\
    firstName (userProfile c) = Oidc.given_name (Oidc.profile user) /\
    lastName (userProfile c) = Oidc.family_name (Oidc.profile user) /\
    email (userProfile c) = Oidc.email (Oidc.profile user) /\
    userId (userProfile c) = Oidc.sub (Oidc.profile user) /\
    organization (userProfile c) = Oidc.org_name (Oidc.profile user) /\
    organizationId (userProfile c) = Oidc.org (Oidc.profile user) /\
    ultimateSite (userProfile c) = Oidc.ultimate_site (Oidc.profile user) /\
    usageCountryIso (userProfile c) = Oidc.usage_country_iso (Oidc.profile user).
Proof.
  eexists. split; [reflexivity|]. split.
  - intros user' Ht Ha Hi Hp. unfold createAccessToken.
    rewrite Ht, Ha, Hi, Hp. reflexivity.
  - split.
    + cbn. destruct (Oidc.expires_in user) as [duration |]; reflexivity.
    + repeat split.
Qed.

(** The window of the specification's scenario A: a duration of 3600 up to
    an expiry within range. *)
Lemma createAccessToken_window_in_range (user : Oidc.User) (duration : Z) :
  Oidc.expires_in user = Some duration ->
  (Z.abs (Oidc.expires_at user) <= maxTime)%Z ->
  (Z.abs (Oidc.expires_at user - duration) <= maxTime)%Z ->
  exists c,
    createAccessToken user = Normal c /\
    getTime (startsAt c) = Some (Oidc.expires_at user - duration)%Z /\
    getTime (expiresAt c) = Some (Oidc.expires_at user).
Proof.
  intros Hin Ha Hs. unfold createAccessToken. rewrite Hin.
  eexists. split; [reflexivity|]. cbn.
  apply Z.leb_le in Ha, Hs. rewrite Ha, Hs. split; reflexivity.
Qed.

(** C6, as stated, fails: an expiry one past the range of a Date gives a
    Credential whose expiry is an invalid date, not the record's expiry;
    and a record without duration gives one whose start is an invalid
    date. *)
Lemma createAccessToken_window_counterexample :
  (exists c,
     createAccessToken far_future_user = Normal c /\
     Oidc.expires_in far_future_user = Some 3600%Z /\
     getTime (expiresAt c) = None /\
     getTime (expiresAt c) <> Some (Oidc.expires_at far_future_user)) /\
  (exists c,
     createAccessToken open_ended_user = Normal c /\
     Oidc.expires_in open_ended_user = None /\
     getTime (startsAt c) = None).
Proof.
  split.
  - eexists. split; [reflexivity|]. split; [reflexivity|].
    split; [reflexivity | discriminate].
  - eexists. split; [reflexivity|]. split; reflexivity.
Qed.

(** C4, as the code has it.  The factory never fails and checks nothing:
    for every raw record it returns a Credential whose subject id and email
    are the record's own, absent where the record has none.  No default is
    substituted. *)
Theorem createAccessToken_never_fails (user : Oidc.User) :
  exists c,
    createAccessToken user = Normal c /\
    userId (userProfile c) = Oidc.sub (Oidc.profile user) /\
    email (userProfile c) = Oidc.email (Oidc.profile user).
Proof. eexists. split; [reflexivity|]. split; reflexivity. Qed.

(** C4, as stated, fails: a record with neither subject id nor email yields
    a Credential, and no error. *)
Lemma createAccessToken_missing_claims_counterexample :
  Oidc.sub (Oidc.profile nameless_user) = None /\
  Oidc.email (Oidc.profile nameless_user) = None /\
  (exists c, createAccessToken nameless_user = Normal c /\
     userId (userProfile c) = None /\ email (userProfile c) = None) /\
  (forall e, createAccessToken nameless_user <> Throw e).
Proof.
  split; [reflexivity|]. split; [reflexivity|]. split.
  - eexists. split; [reflexivity|]. split; reflexivity.
  - intros e H. discriminate H.
Qed.

(** ** Properties of the handlers *)

Lemma isLoading_spec (g : Globals) :
  isLoading g = true <->
  pathname (window_location g) = imjs_test_oidc_redirect_path (Config_App g).
Proof. unfold isLoading. apply String.eqb_eq. Qed.

Lemma _onUserStateChanged_transition g token reason this :
  _onUserStateChanged g token reason this = Normal (transition g token this).
Proof.
  unfold _onUserStateChanged, transition. destruct (isLoading g); reflexivity.
Qed.

Lemma handle_transition g ev this :
  exists token,
    next_token ev = Normal token /\
    handle g ev this = Normal (transition g token (logged ev this)).
Proof.
  destruct ev as [user | e | | | ]; cbn;
    unfold _onUserLoaded, _onError, _onUserExpired, _onUserUnloaded, _onUserSignedOut;
    cbn; eexists; (split; [reflexivity | apply _onUserStateChanged_transition]).
Qed.

Lemma accessToken_transition g token this :
  accessToken (transition g token this) = token.
Proof. unfold transition. destruct (isLoading g); reflexivity. Qed.

Lemma onUserStateChanged_transition g token this :
  onUserStateChanged (transition g token this) =
  if isLoading g then onUserStateChanged this
  else (onUserStateChanged this ++ [mkRaised token token])%list.
Proof. unfold transition. destruct (isLoading g); reflexivity. Qed.

Lemma onUserStateChanged_logged ev this :
  onUserStateChanged (logged ev this) = onUserStateChanged this.
Proof. destruct ev; reflexivity. Qed.

Lemma _userManager_transition g token this :
  _userManager (transition g token this) = _userManager this.
Proof. unfold transition. destruct (isLoading g); reflexivity. Qed.

Lemma _ready_transition g token this :
  _ready (transition g token this) = _ready this.
Proof. unfold transition. destruct (isLoading g); reflexivity. Qed.

Lemma console_error_transition g token this :
  console_error (transition g token this) = console_error this.
Proof. unfold transition. destruct (isLoading g); reflexivity. Qed.

(** C3.  On the redirect path a transition changes the credential slot and
    delivers nothing; off it the same transition changes the slot and makes
    exactly one delivery, whatever was suppressed before.  This holds for
    every call of [_onUserStateChanged], and so for the handler of each of
    the five lifecycle events. *)
Theorem redirect_suppresses_notification (g : Globals) (token : option AccessToken)
    (reason : string) (ev : LifecycleEvent) (this : OidcClient) :
  (isLoading g = true <->
   pathname (window_location g) = imjs_test_oidc_redirect_path (Config_App g)) /\
  (exists this',
     _onUserStateChanged g token reason this = Normal this' /\
     accessToken this' = token /\
     onUserStateChanged this' =
       if isLoading g then onUserStateChanged this
       else (onUserStateChanged this ++ [mkRaised token token])%list) /\
  (exists token' this',
     next_token ev = Normal token' /\
     handle g ev this = Normal this' /\
     accessToken this' = token' /\
     onUserStateChanged this' =
       if isLoading g then onUserStateChanged this
       else (onUserStateChanged this ++ [mkRaised token' token'])%list).
Proof.
  split; [apply isLoading_spec|]. split.
  - exists (transition g token this).
    split; [apply _onUserStateChanged_transition|].
    split; [apply accessToken_transition | apply onUserStateChanged_transition].
  - destruct (handle_transition g ev this) as [token' [Hn Hh]].
    exists token', (transition g token' (logged ev this)).
    split; [exact Hn|]. split; [exact Hh|].
    split; [apply accessToken_transition|].
    rewrite onUserStateChanged_transition, onUserStateChanged_logged. reflexivity.
Qed.

(** Whatever the handler of an event delivers is the value it has just
    stored: the listeners are handed the token the getter returns while
    they run and after the handler has returned. *)
Lemma handle_delivers_stored g ev this :
  exists this' news,
    handle g ev this = Normal this' /\
    onUserStateChanged this' = (onUserStateChanged this ++ news)%list /\
    Forall (fun r => coherent r /\ delivered r = accessToken this') news.
Proof.
  destruct (handle_transition g ev this) as [token [_ Hh]].
  exists (transition g token (logged ev this)).
  exists (if isLoading g then [] else [mkRaised token token]).
  split; [exact Hh|]. split.
  - rewrite onUserStateChanged_transition, onUserStateChanged_logged.
    destruct (isLoading g); [rewrite app_nil_r|]; reflexivity.
  - rewrite accessToken_transition.
    destruct (isLoading g); repeat constructor.
Qed.

(** ** Sequences of events *)

Lemma process_app evs1 evs2 this :
  process (evs1 ++ evs2) this = (this' <- process evs1 this ;; process evs2 this').
Proof.
  revert this. induction evs1 as [| [g ev] evs1 IH]; intros this; cbn.
  - reflexivity.
  - destruct (handle g ev this) as [this1 | e]; cbn; [apply IH | reflexivity].
Qed.

Lemma process_Normal evs this :
  exists this', process evs this = Normal this'.
Proof.
  revert this. induction evs as [| [g ev] evs IH]; intros this; cbn.
  - eexists. reflexivity.
  - destruct (handle_transition g ev this) as [token [_ Hh]].
    rewrite Hh. cbn. apply IH.
Qed.




(** ** The scenarios of the specification, run *)

(** A: a fresh user is loaded off the redirect path. *)
Example scenario_loaded :
  exists this' c,
    handle at_root (UserLoaded fresh_user) new_OidcClient = Normal this' /\
    accessToken this' = Some c /\
    getTime (startsAt c) = Some 1699996400%Z /\
    getTime (expiresAt c) = Some 1700000000%Z /\
    onUserStateChanged this' = [mkRaised (Some c) (Some c)].
Proof. do 2 eexists. repeat split. Qed.

(** B: the access token expires with no prior user. *)
Example scenario_expired :
  handle at_root AccessTokenExpired new_OidcClient =
  Normal (mkOidcClient None None Pending [mkRaised None None] [] []).
Proof. reflexivity. Qed.

(** C: the user is unloaded while the page is the redirect target. *)
Example scenario_unloaded_on_redirect :
  exists this1 this2,
    handle at_root (UserLoaded fresh_user) new_OidcClient = Normal this1 /\
    handle at_redirect UserUnloaded this1 = Normal this2 /\
    accessToken this2 = None /\
    onUserStateChanged this2 = onUserStateChanged this1.
Proof. do 2 eexists. repeat split. Qed.

(** D: [signIn] on the object the constructor has just returned. *)
Example scenario_signIn_too_early :
  signIn new_OidcClient = Throw (new_Error "OidcClient is not ready to be used yet").
Proof. reflexivity. Qed.

(** ** Steps of a lifetime *)

Lemma handled_refl this : handled this this.
Proof.
  split; [reflexivity|]. split; [reflexivity|].
  exists []. rewrite app_nil_r. split; [reflexivity | constructor].
Qed.

Lemma handled_trans this1 this2 this3 :
  handled this1 this2 -> handled this2 this3 -> handled this1 this3.
Proof.
  intros [Hu1 [Hr1 [n1 [Hn1 Hc1]]]] [Hu2 [Hr2 [n2 [Hn2 Hc2]]]].
  split; [congruence|]. split; [congruence|].
  exists (n1 ++ n2)%list. split.
  - rewrite Hn2, Hn1, app_assoc. reflexivity.
  - apply Forall_app. split; assumption.
Qed.

Lemma handled_transition g token this : handled this (transition g token this).
Proof.
  split; [apply _userManager_transition|]. split; [apply _ready_transition|].
  exists (if isLoading g then [] else [mkRaised token token]). split.
  - rewrite onUserStateChanged_transition.
    destruct (isLoading g); [rewrite app_nil_r|]; reflexivity.
  - destruct (isLoading g); repeat constructor.
Qed.

Lemma handled_log_error e this : handled this (log_error e this).
Proof.
  split; [reflexivity|]. split; [reflexivity|].
  exists []. cbn. rewrite app_nil_r. split; [reflexivity | constructor].
Qed.

Lemma handled_replace_location url this : handled this (replace_location url this).
Proof.
  split; [reflexivity|]. split; [reflexivity|].
  exists []. cbn. rewrite app_nil_r. split; [reflexivity | constructor].
Qed.

Lemma handled_logged ev this : handled this (logged ev this).
Proof. destruct ev; cbn; [apply handled_refl | apply handled_log_error | apply handled_refl ..]. Qed.

Lemma handle_handled g ev this :
  exists this', handle g ev this = Normal this' /\ handled this this'.
Proof.
  destruct (handle_transition g ev this) as [token [_ Hh]].
  eexists. split; [exact Hh|].
  eapply handled_trans; [apply handled_logged | apply handled_transition].
Qed.

Lemma call_all_handled {Cb : Type} (f : Cb -> OidcClient -> Completion OidcClient) :
  (forall cb this, exists this', f cb this = Normal this' /\ handled this this') ->
  forall cbs this, exists this', call_all f cbs this = Normal this' /\ handled this this'.
Proof.
  intros Hf cbs. induction cbs as [| cb cbs IH]; intros this; cbn.
  - eexists. split; [reflexivity | apply handled_refl].
  - destruct (Hf cb this) as [this1 [H1 Hh1]]. rewrite H1. cbn.
    destruct (IH this1) as [this2 [H2 Hh2]].
    exists this2. split; [exact H2 | eapply handled_trans; eassumption].
Qed.

Lemma raise_handled g ev this :
  exists this', raise g ev this = Normal this' /\ handled this this'.
Proof.
  unfold raise. destruct (_userManager this) as [um |].
  - destruct ev as [user | e | | | ]; apply call_all_handled; intros cb this0.
    + destruct cb. apply (handle_handled g (UserLoaded user)).
    + destruct cb. apply (handle_handled g (SilentRenewError e)).
    + destruct cb; [apply (handle_handled g AccessTokenExpired)
        | apply (handle_handled g UserUnloaded) | apply (handle_handled g UserSignedOut)].
    + destruct cb; [apply (handle_handled g AccessTokenExpired)
        | apply (handle_handled g UserUnloaded) | apply (handle_handled g UserSignedOut)].
    + destruct cb; [apply (handle_handled g AccessTokenExpired)
        | apply (handle_handled g UserUnloaded) | apply (handle_handled g UserSignedOut)].
  - eexists. split; [reflexivity | apply handled_refl].
Qed.

Lemma getUser_then_handled g r this :
  exists this', getUser_then g r this = Normal this' /\ handled this this'.
Proof.
  destruct r as [[user |] | e]; cbn.
  - destruct (Oidc.expired user); cbn.
    + apply (handle_handled g AccessTokenExpired).
    + apply (handle_handled g (UserLoaded user)).
  - apply (handle_handled g AccessTokenExpired).
  - apply (handle_handled g (SilentRenewError e)).
Qed.

Lemma redirectCallback_then_handled g r this :
  exists this', redirectCallback_then g r this = Normal this' /\ handled this this'.
Proof.
  destruct r as [u | e]; cbn.
  - eexists. split; [reflexivity | apply handled_replace_location].
  - apply (handle_handled g (SilentRenewError e)).
Qed.

Lemma engine_kept_refl o : engine_kept o o.
Proof. destruct o as [um |]; cbn; [split; [reflexivity | tauto] | exact I]. Qed.

Lemma engine_kept_trans o1 o2 o3 :
  engine_kept o1 o2 -> engine_kept o2 o3 -> engine_kept o1 o3.
Proof.
  destruct o1 as [um1 |], o2 as [um2 |], o3 as [um3 |]; cbn; try tauto.
  intros [Hq1 Hs1] [Hq2 Hs2]. split; [congruence | tauto].
Qed.

Lemma handled_engine_kept this this' :
  handled this this' -> engine_kept (_userManager this) (_userManager this').
Proof. intros [Hu _]. rewrite Hu. apply engine_kept_refl. Qed.

Lemma removeHandler_at_most_once {A : Type} (eqb : A -> A -> bool) (cb : A) (l : list A) :
  eqb cb cb = true -> l = [] \/ l = [cb] -> removeHandler eqb cb l = [].
Proof.
  intros Heq [-> | ->]; cbn; [reflexivity | rewrite Heq; reflexivity].
Qed.

(** What [dispose] leaves of an attached engine. *)
Lemma dispose_attached um token rdy raised con loc :
  dispose (mkOidcClient (Some um) token rdy raised con loc) =
  Normal (mkOidcClient
    (Some (mkUserManager (settings um)
       (mkEvents
          (removeHandler (fun _ _ => true) cb_onUserLoaded (userLoaded (events um)))
          (removeHandler (fun _ _ => true) cb_onError (silentRenewError (events um)))
          (removeHandler VoidCallback_eqb cb_onUserExpired (accessTokenExpired (events um)))
          (removeHandler VoidCallback_eqb cb_onUserUnloaded (userUnloaded (events um)))
          (removeHandler VoidCallback_eqb cb_onUserSignedOut (userSignedOut (events um))))
       (calls um)))
    token rdy raised con loc).
Proof. reflexivity. Qed.

Lemma dispose_detached token rdy raised con loc :
  dispose (mkOidcClient None token rdy raised con loc) =
  Normal (mkOidcClient None token rdy raised con loc).
Proof. reflexivity. Qed.

Lemma dispose_unsubscribes um token rdy raised con loc :
  subscribed_at_most_once (events um) ->
  dispose (mkOidcClient (Some um) token rdy raised con loc) =
  Normal (mkOidcClient
    (Some (mkUserManager (settings um) (mkEvents [] [] [] [] []) (calls um)))
    token rdy raised con loc).
Proof.
  intros [H1 [H2 [H3 [H4 H5]]]]. rewrite dispose_attached.
  rewrite !removeHandler_at_most_once by (assumption || reflexivity).
  reflexivity.
Qed.

Lemma after_no_engine a this :
  _userManager this = None -> after a this = this.
Proof.
  intros H. destruct a; unfold after, perform, signIn, signOut, dispose, raise;
    rewrite H; reflexivity.
Qed.

Lemma after_ready a this : _ready (after a this) = _ready this.
Proof.
  destruct a as [ | | | g ev | g r | g r]; unfold after, perform.
  - destruct this as [[um |] ? ? ? ? ?]; reflexivity.
  - destruct this as [[um |] ? ? ? ? ?]; reflexivity.
  - destruct this as [[um |] ? ? ? ? ?]; reflexivity.
  - destruct (raise_handled g ev this) as [this' [-> [_ [Hr _]]]]. exact Hr.
  - destruct (_userManager this); [|reflexivity].
    destruct (getUser_then_handled g r this) as [this' [-> [_ [Hr _]]]]. exact Hr.
  - destruct (_userManager this); [|reflexivity].
    destruct (redirectCallback_then_handled g r this) as [this' [-> [_ [Hr _]]]]. exact Hr.
Qed.

Lemma after_deliveries a this :
  exists news,
    onUserStateChanged (after a this) = (onUserStateChanged this ++ news)%list /\
    Forall coherent news.
Proof.
  assert (Hnil : exists news,
            onUserStateChanged this = (onUserStateChanged this ++ news)%list /\
            Forall coherent news).
  { exists []. rewrite app_nil_r. split; [reflexivity | constructor]. }
  destruct a as [ | | | g ev | g r | g r]; unfold after, perform.
  - destruct this as [[um |] ? ? ? ? ?]; exact Hnil.
  - destruct this as [[um |] ? ? ? ? ?]; exact Hnil.
  - destruct this as [[um |] ? ? ? ? ?]; exact Hnil.
  - destruct (raise_handled g ev this) as [this' [-> [_ [_ Hn]]]]. exact Hn.
  - destruct (_userManager this); [|exact Hnil].
    destruct (getUser_then_handled g r this) as [this' [-> [_ [_ Hn]]]]. exact Hn.
  - destruct (_userManager this); [|exact Hnil].
    destruct (redirectCallback_then_handled g r this) as [this' [-> [_ [_ Hn]]]]. exact Hn.
Qed.

Lemma after_engine_kept a this :
  engine_kept (_userManager this) (_userManager (after a this)).
Proof.
  destruct a as [ | | | g ev | g r | g r]; unfold after, perform.
  - destruct this as [[um |] ? ? ? ? ?]; cbn; [|exact I].
    split; [|tauto]. unfold times. cbn. rewrite filter_app, length_app. apply Nat.add_0_r.
  - destruct this as [[um |] ? ? ? ? ?]; cbn; [|exact I].
    split; [|tauto]. unfold times. cbn. rewrite filter_app, length_app. apply Nat.add_0_r.
  - destruct this as [[um |] ? ? ? ? ?]; [|exact I].
    rewrite dispose_attached. cbn. split; [reflexivity|].
    intros [H1 [H2 [H3 [H4 H5]]]].
    rewrite !removeHandler_at_most_once by (assumption || reflexivity).
    repeat split; left; reflexivity.
  - destruct (raise_handled g ev this) as [this' [-> Hh]].
    apply handled_engine_kept, Hh.
  - destruct (_userManager this) eqn:Hu; [|rewrite Hu; exact I].
    destruct (getUser_then_handled g r this) as [this' [-> Hh]].
    rewrite <- Hu. apply handled_engine_kept, Hh.
  - destruct (_userManager this) eqn:Hu; [|rewrite Hu; exact I].
    destruct (redirectCallback_then_handled g r this) as [this' [-> Hh]].
    rewrite <- Hu. apply handled_engine_kept, Hh.
Qed.

Lemma run_cons a acts this : run (a :: acts) this = run acts (after a this).
Proof. reflexivity. Qed.

Lemma run_no_engine acts this :
  _userManager this = None -> run acts this = this.
Proof.
  revert this. induction acts as [| a acts IH]; intros this H; [reflexivity|].
  rewrite run_cons, (after_no_engine a this H). apply IH, H.
Qed.

Lemma run_ready acts this : _ready (run acts this) = _ready this.
Proof.
  revert this. induction acts as [| a acts IH]; intros this; [reflexivity|].
  rewrite run_cons, IH. apply after_ready.
Qed.

Lemma run_engine_kept acts this :
  engine_kept (_userManager this) (_userManager (run acts this)).
Proof.
  revert this. induction acts as [| a acts IH]; intros this.
  - apply engine_kept_refl.
  - rewrite run_cons. eapply engine_kept_trans; [apply after_engine_kept | apply IH].
Qed.

Lemma run_coherent acts this :
  Forall coherent (onUserStateChanged this) ->
  Forall coherent (onUserStateChanged (run acts this)).
Proof.
  revert this. induction acts as [| a acts IH]; intros this H; [exact H|].
  rewrite run_cons. apply IH.
  destruct (after_deliveries a this) as [news [-> Hn]].
  apply Forall_app. split; assumption.
Qed.

(** ** Setup *)

Lemma createUserManager_success g url :
  exists st,
    createOidcSettings g (Fulfilled url) = Fulfilled st /\
    createUserManager g (Fulfilled url) None new_OidcClient =
    (attached g st, Fulfilled (_userManager (attached g st))).
Proof.
  eexists. split; [reflexivity|].
  unfold createUserManager, attached, setup_calls. cbn.
  destruct (isLoading g); reflexivity.
Qed.

Lemma createUserManager_discovery_failure g e failure this :
  createUserManager g (Rejected e) failure this = (this, Rejected e).
Proof. reflexivity. Qed.

Lemma createUserManager_construction_failure g url e this :
  createUserManager g (Fulfilled url) (Some e) this = (this, Rejected e).
Proof. reflexivity. Qed.

(** Nothing reads the readiness signal: resolving it commutes with every
    step. *)
Lemma handle_resolve g ev this :
  handle g ev (resolve this) = (this' <- handle g ev this ;; Normal (resolve this')).
Proof.
  destruct ev; cbn;
    unfold _onUserLoaded, _onError, _onUserExpired, _onUserUnloaded, _onUserSignedOut,
      _onUserStateChanged; cbn;
    destruct (isLoading g); reflexivity.
Qed.

Lemma call_all_resolve {Cb : Type} (f : Cb -> OidcClient -> Completion OidcClient) :
  (forall cb this, f cb (resolve this) = (this' <- f cb this ;; Normal (resolve this'))) ->
  forall cbs this,
    call_all f cbs (resolve this) = (this' <- call_all f cbs this ;; Normal (resolve this')).
Proof.
  intros Hf cbs. induction cbs as [| cb cbs IH]; intros this; cbn; [reflexivity|].
  rewrite Hf. destruct (f cb this) as [this1 | e]; cbn; [apply IH | reflexivity].
Qed.

Lemma perform_resolve a this :
  perform a (resolve this) = (this' <- perform a this ;; Normal (resolve this')).
Proof.
  destruct a as [ | | | g ev | g r | g r]; unfold perform.
  - destruct this as [[um |] ? ? ? ? ?]; reflexivity.
  - destruct this as [[um |] ? ? ? ? ?]; reflexivity.
  - destruct this as [[um |] ? ? ? ? ?]; reflexivity.
  - unfold raise. cbn [_userManager resolve].
    destruct (_userManager this) as [um |]; [|reflexivity].
    destruct ev as [user | e | | | ]; apply call_all_resolve; intros cb this0; destruct cb;
      first [ apply (handle_resolve g (UserLoaded user))
            | apply (handle_resolve g (SilentRenewError e))
            | apply (handle_resolve g AccessTokenExpired)
            | apply (handle_resolve g UserUnloaded)
            | apply (handle_resolve g UserSignedOut) ].
  - cbn [_userManager resolve]. destruct (_userManager this) as [um |]; [|reflexivity].
    destruct r as [[user |] | e]; cbn [getUser_then].
    + destruct (Oidc.expired user); cbn [negb].
      * apply (handle_resolve g AccessTokenExpired).
      * apply (handle_resolve g (UserLoaded user)).
    + apply (handle_resolve g AccessTokenExpired).
    + apply (handle_resolve g (SilentRenewError e)).
  - cbn [_userManager resolve]. destruct (_userManager this) as [um |]; [|reflexivity].
    destruct r as [u | e]; cbn [redirectCallback_then].
    + reflexivity.
    + apply (handle_resolve g (SilentRenewError e)).
Qed.

Lemma after_resolve a this : after a (resolve this) = resolve (after a this).
Proof.
  unfold after. rewrite perform_resolve.
  destruct (perform a this); reflexivity.
Qed.

Lemma run_resolve acts : forall this, run acts (resolve this) = resolve (run acts this).
Proof.
  induction acts as [| a acts IH]; intros this; [reflexivity|].
  rewrite !run_cons, after_resolve. apply IH.
Qed.

Lemma run_app acts1 acts2 this : run (acts1 ++ acts2) this = run acts2 (run acts1 this).
Proof. unfold run. apply fold_left_app. Qed.

(** The normal forms of a client's states.  With a failed setup the client
    never leaves the constructed state. *)
Lemma awaiting_failure before g discoverUrl failure between :
  (exists e, discoverUrl = Rejected e) \/ (exists e, failure = Some e) ->
  awaiting before g discoverUrl failure between = new_OidcClient.
Proof.
  intros H. unfold awaiting. rewrite (run_no_engine before new_OidcClient eq_refl).
  destruct discoverUrl as [url | e].
  - destruct H as [[e H] | [e ->]]; [discriminate H|].
    rewrite createUserManager_construction_failure. apply run_no_engine. reflexivity.
  - rewrite createUserManager_discovery_failure. apply run_no_engine. reflexivity.
Qed.

Lemma lifetime_failure before g discoverUrl failure between afterwards :
  (exists e, discoverUrl = Rejected e) \/ (exists e, failure = Some e) ->
  lifetime before g discoverUrl failure between afterwards = new_OidcClient.
Proof.
  intros H. unfold lifetime. rewrite (awaiting_failure _ _ _ _ _ H).
  rewrite (run_no_engine before new_OidcClient eq_refl).
  destruct discoverUrl as [url | e].
  - destruct H as [[e H] | [e ->]]; [discriminate H|].
    rewrite createUserManager_construction_failure. apply run_no_engine. reflexivity.
  - rewrite createUserManager_discovery_failure. apply run_no_engine. reflexivity.
Qed.

Lemma awaiting_success before g url between :
  exists st,
    createOidcSettings g (Fulfilled url) = Fulfilled st /\
    awaiting before g (Fulfilled url) None between = run between (attached g st).
Proof.
  destruct (createUserManager_success g url) as [st [Hst Hc]].
  exists st. split; [exact Hst|].
  unfold awaiting. rewrite (run_no_engine before new_OidcClient eq_refl), Hc. reflexivity.
Qed.

Lemma lifetime_success before g url between afterwards :
  exists st,
    createOidcSettings g (Fulfilled url) = Fulfilled st /\
    lifetime before g (Fulfilled url) None between afterwards =
    resolve (run (between ++ afterwards) (attached g st)).
Proof.
  destruct (createUserManager_success g url) as [st [Hst Hc]].
  exists st. split; [exact Hst|].
  unfold lifetime, awaiting.
  rewrite (run_no_engine before new_OidcClient eq_refl), Hc. cbn [fst snd constructor_executor].
  rewrite run_resolve, run_app. reflexivity.
Qed.

(** What every run from the attached client keeps. *)
Lemma run_attached acts g st :
  exists um,
    _userManager (run acts (attached g st)) = Some um /\
    _ready (run acts (attached g st)) = Pending /\
    times getUser um = 1%nat /\
    subscribed_at_most_once (events um).
Proof.
  pose proof (run_engine_kept acts (attached g st)) as Hk. cbn in Hk.
  destruct (_userManager (run acts (attached g st))) as [um |]; [|contradiction].
  destruct Hk as [Hq Hsub].
  exists um. split; [reflexivity|]. split; [apply run_ready|]. split.
  - rewrite Hq. unfold times, setup_calls. cbn. destruct (isLoading g); reflexivity.
  - apply Hsub. cbn. repeat split; right; reflexivity.
Qed.

(** A lifetime whose setup fails never leaves the constructed state; one
    whose setup succeeds has an engine and a resolved readiness signal. *)
Lemma lifetime_cases before g discoverUrl failure between afterwards :
  lifetime before g discoverUrl failure between afterwards = new_OidcClient \/
  exists url um,
    discoverUrl = Fulfilled url /\ failure = None /\
    _userManager (lifetime before g discoverUrl failure between afterwards) = Some um /\
    _ready (lifetime before g discoverUrl failure between afterwards) = Resolved /\
    times getUser um = 1%nat /\
    subscribed_at_most_once (events um).
Proof.
  destruct discoverUrl as [url | e].
  - destruct failure as [e |].
    + left. apply lifetime_failure. right. exists e. reflexivity.
    + right. destruct (lifetime_success before g url between afterwards) as [st [_ ->]].
      destruct (run_attached (between ++ afterwards) g st) as [um [Hu [Hr [Hq Hsub]]]].
      exists url, um. do 2 (split; [reflexivity|]).
      split; [exact Hu|]. split; [cbn; rewrite Hr; reflexivity|].
      split; assumption.
  - left. apply lifetime_failure. left. exists e. reflexivity.
Qed.

(** Before the continuation of the [await] the signal is pending, with or
    without an engine. *)
Lemma awaiting_cases before g discoverUrl failure between :
  awaiting before g discoverUrl failure between = new_OidcClient \/
  exists url um,
    discoverUrl = Fulfilled url /\ failure = None /\
    _userManager (awaiting before g discoverUrl failure between) = Some um /\
    _ready (awaiting before g discoverUrl failure between) = Pending /\
    times getUser um = 1%nat /\
    subscribed_at_most_once (events um).
Proof.
  destruct discoverUrl as [url | e].
  - destruct failure as [e |].
    + left. apply awaiting_failure. right. exists e. reflexivity.
    + right. destruct (awaiting_success before g url between) as [st [_ ->]].
      destruct (run_attached between g st) as [um [Hu [Hr [Hq Hsub]]]].
      exists url, um. do 2 (split; [reflexivity|]).
      split; [exact Hu|]. split; [exact Hr|]. split; assumption.
  - left. apply awaiting_failure. left. exists e. reflexivity.
Qed.

Lemma reachable_new : reachable new_OidcClient.
Proof.
  left. exists [], at_root, (Rejected (new_Error "Network Error")), None, [], [].
  reflexivity.
Qed.

Lemma reachable_subscriptions this um :
  reachable this -> _userManager this = Some um ->
  subscribed_at_most_once (events um).
Proof.
  intros [[before [g [d [f [between [afterwards ->]]]]]]
         | [before [g [d [f [between ->]]]]]] Hu.
  - destruct (lifetime_cases before g d f between afterwards)
      as [Hnew | [url [um' [_ [_ [Hu' [_ [_ Hsub]]]]]]]].
    + rewrite Hnew in Hu. discriminate Hu.
    + rewrite Hu' in Hu. injection Hu as <-. exact Hsub.
  - destruct (awaiting_cases before g d f between)
      as [Hnew | [url [um' [_ [_ [Hu' [_ [_ Hsub]]]]]]]].
    + rewrite Hnew in Hu. discriminate Hu.
    + rewrite Hu' in Hu. injection Hu as <-. exact Hsub.
Qed.

(** The readiness signal has no error path: it is pending or resolved. *)
Lemma ready_never_rejected this e :
  reachable this -> ready this <> RejectedWith e.
Proof.
  intros [[before [g [d [f [between [afterwards ->]]]]]]
         | [before [g [d [f [between ->]]]]]]; unfold ready.
  - destruct (lifetime_cases before g d f between afterwards)
      as [Hnew | [url [um [_ [_ [_ [Hres _]]]]]]].
    + rewrite Hnew. discriminate.
    + rewrite Hres. discriminate.
  - destruct (awaiting_cases before g d f between)
      as [Hnew | [url [um [_ [_ [_ [Hres _]]]]]]].
    + rewrite Hnew. discriminate.
    + rewrite Hres. discriminate.
Qed.

(** A failed initial query is logged and empties the slot. *)
Lemma initial_query_failure_logged g e this :
  exists this',
    getUser_then g (Rejected e) this = Normal this' /\
    console_error this' = (console_error this ++ [e])%list /\
    accessToken this' = None /\
    ready this' = ready this.
Proof.
  cbn. unfold _onError. rewrite _onUserStateChanged_transition.
  eexists. split; [reflexivity|].
  rewrite console_error_transition, accessToken_transition.
  unfold ready. rewrite _ready_transition. repeat split.
Qed.

(** C2, at the failing inputs.  When discovery is rejected, or the engine's
    constructor throws, the client stays for its whole lifetime exactly as
    the constructor returned it: the readiness signal is still pending and
    nothing has been written to the console. *)
Theorem setup_failure_leaves_ready_pending (before between afterwards : list Action)
    (g : Globals) (url : string) (e : Error) (failure : option Error) :
  lifetime before g (Rejected e) failure between afterwards = new_OidcClient /\
  lifetime before g (Fulfilled url) (Some e) between afterwards = new_OidcClient /\
  ready new_OidcClient = Pending /\
  console_error new_OidcClient = [] /\
  accessToken new_OidcClient = None.
Proof.
  split; [|split].
  - apply lifetime_failure. left. exists e. reflexivity.
  - apply lifetime_failure. right. exists e. reflexivity.
  - repeat split.
Qed.

(** C5.  Before the engine has been attached both [signIn] and [signOut]
    throw the not-ready error; the client, and with it every record of a
    redirect or navigation, is left as it was. *)
Theorem signIn_signOut_before_ready (this : OidcClient) :
  _userManager this = None ->
  signIn this = Throw (new_Error "OidcClient is not ready to be used yet") /\
  signOut this = Throw (new_Error "OidcClient is not ready to be used yet") /\
  after Call_signIn this = this /\
  after Call_signOut this = this.
Proof.
  intros Hu.
  split; [unfold signIn; rewrite Hu; reflexivity|].
  split; [unfold signOut; rewrite Hu; reflexivity|].
  split; apply after_no_engine, Hu.
Qed.

Lemma signIn_signOut_before_ready_witness :
  signIn new_OidcClient = Throw (new_Error "OidcClient is not ready to be used yet") /\
  signOut new_OidcClient = Throw (new_Error "OidcClient is not ready to be used yet").
Proof.
  destruct (signIn_signOut_before_ready new_OidcClient eq_refl) as [Hin [Hout _]].
  split; [exact Hin | exact Hout].
Defined.

(** Until discovery has settled and the callback of [createUserManager] has
    run, no engine is attached, whatever the application calls. *)
Lemma no_engine_before_setup before :
  run before new_OidcClient = new_OidcClient /\
  _userManager (run before new_OidcClient) = None /\
  ready (run before new_OidcClient) = Pending.
Proof.
  rewrite (run_no_engine before new_OidcClient eq_refl). repeat split.
Qed.

(** Between that callback and the continuation of the [await] the engine is
    attached and the readiness signal still pending: there [signIn] does
    not throw. *)
Remark signIn_attached_while_pending g url between :
  exists um,
    _userManager (awaiting [] g (Fulfilled url) None between) = Some um /\
    ready (awaiting [] g (Fulfilled url) None between) = Pending /\
    signIn (awaiting [] g (Fulfilled url) None between) =
      Normal (on_userManager (call signinRedirect)
                (awaiting [] g (Fulfilled url) None between)).
Proof.
  destruct (awaiting_success [] g url between) as [st [_ ->]].
  destruct (run_attached between g st) as [um [Hu [Hr _]]].
  exists um. split; [exact Hu|]. split; [exact Hr|].
  unfold signIn. rewrite Hu. reflexivity.
Qed.

(** C7.  In a lifetime whose setup succeeds the engine is asked for its
    current user exactly once.  When that query is answered, a user who is
    present and unexpired goes through the loaded transition and fills the
    slot with their Credential; no user, or an expired one, goes through
    the expired transition and empties it. *)
Theorem setup_queries_user_once (before between afterwards : list Action)
    (g g' : Globals) (url : string) (r : option Oidc.User) (this : OidcClient) :
  (exists um,
     _userManager (lifetime before g (Fulfilled url) None between afterwards) = Some um /\
     times getUser um = 1%nat) /\
  getUser_then g' (Fulfilled r) this =
    match r with
    | Some user =>
        if Oidc.expired user then _onUserExpired g' this else _onUserLoaded g' user this
    | None => _onUserExpired g' this
    end /\
  exists this',
    getUser_then g' (Fulfilled r) this = Normal this' /\
    match r with
    | Some user =>
        if Oidc.expired user then accessToken this' = None
        else exists c, createAccessToken user = Normal c /\ accessToken this' = Some c
    | None => accessToken this' = None
    end.
Proof.
  split; [|split].
  - destruct (lifetime_success before g url between afterwards) as [st [_ ->]].
    destruct (run_attached (between ++ afterwards) g st) as [um [Hu [_ [Hq _]]]].
    exists um. split; [exact Hu | exact Hq].
  - destruct r as [user |]; cbn; [destruct (Oidc.expired user)|]; reflexivity.
  - destruct r as [user |]; cbn; [destruct (Oidc.expired user); cbn|].
    + unfold _onUserExpired. rewrite _onUserStateChanged_transition.
      eexists. split; [reflexivity | apply accessToken_transition].
    + unfold _onUserLoaded. cbn. rewrite _onUserStateChanged_transition.
      eexists. split; [reflexivity|].
      eexists. split; [reflexivity | apply accessToken_transition].
    + unfold _onUserExpired. rewrite _onUserStateChanged_transition.
      eexists. split; [reflexivity | apply accessToken_transition].
Qed.

(** C8.  In every state a client can reach, [dispose] returns normally and
    a second [dispose] right after it returns normally and changes nothing.
    Without an engine it changes nothing at all; with one, none of the five
    subscription lists holds a handler afterwards. *)
Theorem dispose_idempotent_and_safe (this : OidcClient) :
  reachable this ->
  exists this',
    dispose this = Normal this' /\
    dispose this' = Normal this' /\
    (_userManager this = None -> this' = this) /\
    (forall um, _userManager this = Some um ->
       exists um', _userManager this' = Some um' /\ no_subscription (events um')).
Proof.
  intros Hreach.
  pose proof (reachable_subscriptions this) as Hsub.
  destruct this as [[um |] token rdy raised con loc].
  - specialize (Hsub um Hreach eq_refl).
    rewrite (dispose_unsubscribes um token rdy raised con loc Hsub).
    eexists. split; [reflexivity|]. split; [reflexivity|].
    split; [discriminate|].
    intros um0 _. eexists. split; [reflexivity|]. repeat split.
  - rewrite dispose_detached.
    eexists. split; [reflexivity|]. split; [reflexivity|].
    split; [reflexivity|]. discriminate.
Qed.

Lemma dispose_idempotent_and_safe_witness :
  exists this',
    dispose (lifetime [Call_dispose] at_root (Fulfilled "https://ims.example.org") None
               [Call_signIn] [Raise at_root (UserLoaded fresh_user)]) = Normal this' /\
    dispose this' = Normal this'.
Proof.
  destruct (dispose_idempotent_and_safe
              (lifetime [Call_dispose] at_root (Fulfilled "https://ims.example.org") None
                 [Call_signIn] [Raise at_root (UserLoaded fresh_user)])
              (or_introl
                 (ex_intro _ [Call_dispose]
                    (ex_intro _ at_root
                       (ex_intro _ (Fulfilled "https://ims.example.org")
                          (ex_intro _ None
                             (ex_intro _ [Call_signIn]
                                (ex_intro _ [Raise at_root (UserLoaded fresh_user)]
                                   eq_refl))))))))
    as [this' [H1 [H2 _]]].
  exists this'. split; [exact H1 | exact H2].
Defined.

(** A [dispose] made while discovery is in flight cancels nothing: setup
    still attaches the engine and subscribes the five handlers afterwards. *)
Remark dispose_before_setup_subscribes_later g url :
  exists um,
    _userManager (lifetime [Call_dispose] g (Fulfilled url) None [] []) = Some um /\
    events um = mkEvents [cb_onUserLoaded] [cb_onError] [cb_onUserExpired]
                  [cb_onUserUnloaded] [cb_onUserSignedOut].
Proof.
  destruct (lifetime_success [Call_dispose] g url [] []) as [st [_ ->]].
  eexists. split; reflexivity.
Qed.

(** C9.  Every delivery ever made on [onUserStateChanged], in any lifetime,
    hands the listeners the value the [accessToken] getter returns while
    they run; and a lifecycle event delivers nothing but the value its
    handler has stored. *)
Theorem notification_equals_accessToken (before between afterwards : list Action)
    (g g' : Globals) (discoverUrl : Settled string) (failure : option Error)
    (ev : LifecycleEvent) (this : OidcClient) :
  Forall coherent
    (onUserStateChanged (lifetime before g discoverUrl failure between afterwards)) /\
  exists this' news,
    handle g' ev this = Normal this' /\
    onUserStateChanged this' = (onUserStateChanged this ++ news)%list /\
    Forall (fun r => coherent r /\ delivered r = accessToken this') news.
Proof.
  split; [|apply handle_delivers_stored].
  destruct discoverUrl as [url | e]; [destruct failure as [e |]|].
  - rewrite lifetime_failure; [constructor | right; exists e; reflexivity].
  - destruct (lifetime_success before g url between afterwards) as [st [_ ->]].
    cbn [onUserStateChanged resolve]. apply run_coherent. constructor.
  - rewrite lifetime_failure; [constructor | left; exists e; reflexivity].
Qed.

(** C10.  [dispose] returns normally, leaves the credential slot as it was
    and delivers nothing, in every state of the client. *)
Theorem dispose_keeps_accessToken (this : OidcClient) :
  exists this',
    dispose this = Normal this' /\
    accessToken this' = accessToken this /\
    onUserStateChanged this' = onUserStateChanged this.
Proof.
  destruct this as [[um |] token rdy raised con loc].
  - rewrite dispose_attached. eexists. split; [reflexivity|]. split; reflexivity.
  - rewrite dispose_detached. eexists. split; [reflexivity|]. split; reflexivity.
Qed.

(** ** The engine over a lifetime *)

Lemma commands_cons a acts : commands (a :: acts) = (commands [a] ++ commands acts)%list.
Proof. unfold commands. cbn. rewrite app_nil_r. reflexivity. Qed.

Lemma UserManager_eta um :
  um = mkUserManager (settings um) (events um) (calls um ++ []).
Proof. destruct um. cbn. rewrite app_nil_r. reflexivity. Qed.

(** One step on an attached engine whose subscriptions are all there or all
    gone: the settings stay, [dispose] empties the subscriptions, and a
    method call adds its redirect command. *)
Lemma after_engine a this um :
  _userManager this = Some um ->
  events um = full_subscription \/ events um = no_events ->
  _userManager (after a this) =
  Some (mkUserManager (settings um)
          (if is_dispose a then no_events else events um)
          (calls um ++ commands [a])).
Proof.
  intros Hu Hev.
  destruct a as [ | | | g ev | g r | g r]; unfold after, perform.
  - destruct this as [o ? ? ? ? ?]. cbn in Hu. subst o. reflexivity.
  - destruct this as [o ? ? ? ? ?]. cbn in Hu. subst o. reflexivity.
  - destruct this as [o ? ? ? ? ?]. cbn in Hu. subst o.
    rewrite dispose_attached. cbn.
    destruct Hev as [-> | ->]; cbn; rewrite app_nil_r; reflexivity.
  - destruct (raise_handled g ev this) as [this' [-> [Hk _]]].
    rewrite Hk, Hu. cbn. f_equal. apply UserManager_eta.
  - rewrite Hu.
    destruct (getUser_then_handled g r this) as [this' [-> [Hk _]]].
    rewrite Hk, Hu. cbn. f_equal. apply UserManager_eta.
  - rewrite Hu.
    destruct (redirectCallback_then_handled g r this) as [this' [-> [Hk _]]].
    rewrite Hk, Hu. cbn. f_equal. apply UserManager_eta.
Qed.

Lemma run_engine acts : forall this um,
  _userManager this = Some um ->
  events um = full_subscription \/ events um = no_events ->
  _userManager (run acts this) =
  Some (mkUserManager (settings um)
          (if existsb is_dispose acts then no_events else events um)
          (calls um ++ commands acts)).
Proof.
  induction acts as [| a acts IH]; intros this um Hu Hev.
  - cbn. rewrite Hu. f_equal. apply UserManager_eta.
  - rewrite run_cons.
    pose proof (after_engine a this um Hu Hev) as Ha.
    rewrite (IH _ _ Ha).
    + cbn [settings events calls existsb]. rewrite (commands_cons a acts), app_assoc.
      destruct (is_dispose a); cbn [orb]; [|reflexivity].
      destruct (existsb is_dispose acts); reflexivity.
    + cbn [events]. destruct (is_dispose a); [right; reflexivity | exact Hev].
Qed.

(** The engine of a lifetime whose setup succeeds, in full; the steps that
    count are those after the callback of [createUserManager]. *)
Lemma lifetime_engine before g url between afterwards :
  exists st,
    createOidcSettings g (Fulfilled url) = Fulfilled st /\
    _userManager (lifetime before g (Fulfilled url) None between afterwards) =
    Some (mkUserManager st
            (if existsb is_dispose (between ++ afterwards)
             then no_events else full_subscription)
            (setup_calls g ++ commands (between ++ afterwards))).
Proof.
  destruct (lifetime_success before g url between afterwards) as [st [Hst ->]].
  exists st. split; [exact Hst|].
  cbn [_userManager resolve].
  rewrite (run_engine (between ++ afterwards) _
             (mkUserManager st full_subscription (setup_calls g))).
  - reflexivity.
  - reflexivity.
  - left. reflexivity.
Qed.

(** X1.  Once the readiness signal is resolved an engine is attached, in
    every state a client can reach, and [signIn] and [signOut] return
    normally, each handing the engine its redirect command; this holds
    also after [dispose], which never detaches the engine. *)
Theorem ready_implies_engine_attached (this : OidcClient) :
  reachable this ->
  ready this = Resolved ->
  exists um,
    _userManager this = Some um /\
    signIn this = Normal (on_userManager (call signinRedirect) this) /\
    signOut this = Normal (on_userManager (call signoutRedirect) this).
Proof.
  intros Hreach Hr.
  assert (Hu : exists um, _userManager this = Some um).
  { destruct Hreach as [[before [g [d [f [between [afterwards ->]]]]]]
                       | [before [g [d [f [between ->]]]]]]; unfold ready in Hr.
    - destruct (lifetime_cases before g d f between afterwards)
        as [Hnew | [url [um [_ [_ [Hu _]]]]]].
      + rewrite Hnew in Hr. discriminate Hr.
      + exists um. exact Hu.
    - destruct (awaiting_cases before g d f between)
        as [Hnew | [url [um [_ [_ [_ [Hp _]]]]]]].
      + rewrite Hnew in Hr. discriminate Hr.
      + rewrite Hp in Hr. discriminate Hr. }
  destruct Hu as [um Hu]. exists um. split; [exact Hu|].
  unfold signIn, signOut. rewrite Hu. split; reflexivity.
Qed.

Lemma ready_implies_engine_attached_witness :
  exists um,
    _userManager (lifetime [] at_root (Fulfilled "https://ims.example.org") None
                    [] [Call_dispose]) = Some um.
Proof.
  destruct (ready_implies_engine_attached
              (lifetime [] at_root (Fulfilled "https://ims.example.org") None
                 [] [Call_dispose])
              (or_introl
                 (ex_intro _ []
                    (ex_intro _ at_root
                       (ex_intro _ (Fulfilled "https://ims.example.org")
                          (ex_intro _ None
                             (ex_intro _ [] (ex_intro _ [Call_dispose] eq_refl)))))))
              eq_refl) as [um [Hu _]].
  exists um. exact Hu.
Defined.

(** X2.  Over a whole lifetime whose setup succeeds the engine receives
    exactly these calls, in this order: the query for the current user, the
    two redirect-callback completions when setup ran on the redirect path
    and neither otherwise, and then one redirect command for each call of
    [signIn] or [signOut] made after the engine was attached. *)
Theorem engine_calls_exact (before between afterwards : list Action) (g : Globals)
    (url : string) :
  exists um,
    _userManager (lifetime before g (Fulfilled url) None between afterwards) = Some um /\
    calls um = (setup_calls g ++ commands (between ++ afterwards))%list.
Proof.
  destruct (lifetime_engine before g url between afterwards) as [st [_ Hu]].
  eexists. split; [exact Hu | reflexivity].
Qed.

(** X3.  The configuration the engine was built with stays for the whole
    lifetime, whatever the globals become later: the authority is the URL
    discovery returned, the client id is the configured one, and the
    redirect and silent-redirect URIs are both the origin of the page at
    setup followed by the configured redirect path. *)
Theorem engine_settings_fixed (before between afterwards : list Action) (g : Globals)
    (url : string) :
  exists um,
    _userManager (lifetime before g (Fulfilled url) None between afterwards) = Some um /\
    createOidcSettings g (Fulfilled url) = Fulfilled (settings um) /\
    authority (settings um) = url /\
    client_id (settings um) = imjs_test_oidc_client_id (Config_App g) /\
    redirect_uri (settings um) =
      protocol (window_location g) ++ "//" ++ host (window_location g)
        ++ imjs_test_oidc_redirect_path (Config_App g) /\
    silent_redirect_uri (settings um) = redirect_uri (settings um).
Proof.
  destruct (lifetime_engine before g url between afterwards) as [st [Hst Hu]].
  eexists. split; [exact Hu|]. cbn [settings].
  split; [exact Hst|].
  cbn in Hst. injection Hst as <-. repeat split.
Qed.

Lemma bind_Normal_r {A : Type} (c : Completion A) : bind c Normal = c.
Proof. destruct c; reflexivity. Qed.

Lemma raise_full_subscription g ev this um :
  _userManager this = Some um -> events um = full_subscription ->
  raise g ev this = handle g ev this.
Proof.
  intros Hu Hev. unfold raise. rewrite Hu, Hev.
  destruct ev; cbn; apply (bind_Normal_r (A := OidcClient)).
Qed.

Lemma raise_no_events g ev this um :
  _userManager this = Some um -> events um = no_events ->
  raise g ev this = Normal this.
Proof.
  intros Hu Hev. unfold raise. rewrite Hu, Hev. destruct ev; reflexivity.
Qed.

(** X4.  After a successful setup an event the engine raises reaches
    exactly the one handler subscribed for it, until [dispose] has been
    called; from then on every event is ignored, for good: nothing
    subscribes again. *)
Theorem raise_until_disposed (before between afterwards : list Action) (g g' : Globals)
    (url : string) (ev : LifecycleEvent) :
  raise g' ev (lifetime before g (Fulfilled url) None between afterwards) =
  if existsb is_dispose (between ++ afterwards)
  then Normal (lifetime before g (Fulfilled url) None between afterwards)
  else handle g' ev (lifetime before g (Fulfilled url) None between afterwards).
Proof.
  destruct (lifetime_engine before g url between afterwards) as [st [_ Hu]].
  destruct (existsb is_dispose (between ++ afterwards)).
  - eapply raise_no_events; [exact Hu | reflexivity].
  - eapply raise_full_subscription; [exact Hu | reflexivity].
Qed.

(** ** What throws, and what [dispose] leaves running *)


(** X6.  [dispose] cancels the event subscriptions and nothing else: the
    callbacks of the promises setup started (the initial query and the two
    redirect callbacks) and the methods [signIn] and [signOut] do the same
    whether they run before or after it. *)
Theorem dispose_commutes (this : OidcClient) (g : Globals)
    (r : Settled (option Oidc.User)) (r' : Settled unit) :
  after Call_dispose (after (Settle_getUser g r) this) =
    after (Settle_getUser g r) (after Call_dispose this) /\
  after Call_dispose (after (Settle_redirectCallback g r') this) =
    after (Settle_redirectCallback g r') (after Call_dispose this) /\
  after Call_dispose (after Call_signIn this) =
    after Call_signIn (after Call_dispose this) /\
  after Call_dispose (after Call_signOut this) =
    after Call_signOut (after Call_dispose this).
Proof.
  destruct this as [[um |] token rdy raised con loc].
  - split; [|split; [|split]].
    + unfold after, perform. rewrite dispose_attached. cbn [_userManager].
      destruct r as [[user |] | e]; cbn;
        [destruct (Oidc.expired user); cbn | | ];
        unfold _onUserLoaded, _onUserExpired, _onError, _onUserStateChanged; cbn;
        destruct (isLoading g); reflexivity.
    + unfold after, perform. rewrite dispose_attached. cbn [_userManager].
      destruct r' as [u | e]; cbn; [reflexivity|].
      unfold _onError, _onUserStateChanged; cbn.
      destruct (isLoading g); reflexivity.
    + reflexivity.
    + reflexivity.
  - repeat split.
Qed.

(** ** Traces of a sequence of events *)

Lemma console_error_logged ev this :
  console_error (logged ev this) =
  (console_error this ++ match ev with SilentRenewError e => [e] | _ => [] end)%list.
Proof. destruct ev; cbn; try rewrite app_nil_r; reflexivity. Qed.

Lemma process_trace evs : forall this,
  exists this',
    process evs this = Normal this' /\
    onUserStateChanged this' = (onUserStateChanged this ++ deliveries_of evs)%list /\
    console_error this' = (console_error this ++ errors_of evs)%list.
Proof.
  induction evs as [| [g ev] evs IH]; intros this.
  - exists this. cbn. rewrite !app_nil_r. repeat split.
  - destruct (handle_transition g ev this) as [token [Hn Hh]].
    destruct (IH (transition g token (logged ev this))) as [this' [Hp [Hd Hc]]].
    exists this'. cbn [process]. rewrite Hh. cbn [bind].
    split; [exact Hp|]. split.
    + rewrite Hd, onUserStateChanged_transition, onUserStateChanged_logged.
      unfold deliveries_of. cbn [flat_map fst snd]. rewrite Hn.
      destruct (isLoading g); [reflexivity|]. rewrite <- app_assoc. reflexivity.
    + rewrite Hc, console_error_transition, console_error_logged.
      unfold errors_of. cbn [flat_map snd]. rewrite <- app_assoc. reflexivity.
Qed.

(** X7.  A sequence of events makes one delivery for each event handled
    off the redirect path and none for the others, in the order of the
    events; a delivery suppressed on the redirect path is never made up
    later. *)
Theorem deliveries_in_event_order (evs : list (Globals * LifecycleEvent))
    (this : OidcClient) :
  exists this',
    process evs this = Normal this' /\
    onUserStateChanged this' = (onUserStateChanged this ++ deliveries_of evs)%list.
Proof.
  destruct (process_trace evs this) as [this' [Hp [Hd _]]].
  exists this'. split; assumption.
Qed.

(** X8.  A sequence of events writes to the console exactly the errors of
    its silent-renew-error events, in order; the redirect path suppresses
    the notification of such an event, never its log line, and the other
    four events log nothing. *)
Theorem console_logs_renew_errors (evs : list (Globals * LifecycleEvent))
    (this : OidcClient) :
  exists this',
    process evs this = Normal this' /\
    console_error this' = (console_error this ++ errors_of evs)%list.
Proof.
  destruct (process_trace evs this) as [this' [Hp [_ Hc]]].
  exists this'. split; assumption.
Qed.

(** X9.  When the last event of a sequence is handled off the redirect
    path, the listeners are up to date: the last delivery carries the value
    the slot now holds. *)
Theorem last_delivery_is_slot (evs : list (Globals * LifecycleEvent)) (g : Globals)
    (ev : LifecycleEvent) (this : OidcClient) :
  isLoading g = false ->
  exists this' older,
    process (evs ++ [(g, ev)]) this = Normal this' /\
    onUserStateChanged this' =
      (older ++ [mkRaised (accessToken this') (accessToken this')])%list.
Proof.
  intros Hl. rewrite process_app.
  destruct (process_Normal evs this) as [this1 ->]. cbn.
  destruct (handle_transition g ev this1) as [token [_ ->]]. cbn.
  eexists. exists (onUserStateChanged this1). split; [reflexivity|].
  rewrite accessToken_transition, onUserStateChanged_transition, Hl,
    onUserStateChanged_logged. reflexivity.
Qed.

Lemma last_delivery_is_slot_witness :
  exists this' older,
    process [(at_redirect, UserLoaded fresh_user); (at_root, UserSignedOut)]
      new_OidcClient = Normal this' /\
    onUserStateChanged this' =
      (older ++ [mkRaised (accessToken this') (accessToken this')])%list.
Proof.
  exact (last_delivery_is_slot [(at_redirect, UserLoaded fresh_user)] at_root
           UserSignedOut new_OidcClient eq_refl).
Defined.

(** ** Navigation and the origin of credentials *)

Lemma made_from_incl users users' token :
  incl users users' -> made_from users token -> made_from users' token.
Proof.
  intros Hi. destruct token as [c |]; cbn; [|tauto].
  intros [user [Hin Hc]]. exists user. split; [apply Hi, Hin | exact Hc].
Qed.

Lemma quiet_refl new this : quiet new this this.
Proof. split; [reflexivity | tauto]. Qed.

Lemma quiet_trans new this1 this2 this3 :
  quiet new this1 this2 -> quiet new this2 this3 -> quiet new this1 this3.
Proof.
  intros [Hl1 Hm1] [Hl2 Hm2]. split; [congruence|].
  intros users Hi Ha. apply Hm2, Hm1; assumption.
Qed.

Lemma quiet_incl new new' this this' :
  incl new new' -> quiet new this this' -> quiet new' this this'.
Proof.
  intros Hi [Hl Hm]. split; [exact Hl|].
  intros users Hi' Ha. apply Hm; [|exact Ha].
  intros user Hin. apply Hi', Hi, Hin.
Qed.

Lemma quiet_transition new g token this :
  made_from new token -> quiet new this (transition g token this).
Proof.
  intros Hm. unfold transition.
  destruct (isLoading g); (split; [reflexivity|]); intros users Hi [_ Hd];
    pose proof (made_from_incl new users token Hi Hm) as Hm'; split; cbn;
    try exact Hm'; try exact Hd.
  apply Forall_app. split; [exact Hd|]. constructor; [exact Hm' | constructor].
Qed.

Lemma quiet_logged new ev this : quiet new this (logged ev this).
Proof. destruct ev; cbn; split; try reflexivity; tauto. Qed.

Lemma next_token_made_from g ev token :
  next_token ev = Normal token -> made_from (supplied [Raise g ev]) token.
Proof.
  destruct ev as [user | e | | | ]; cbn; intros H; injection H as <-; cbn;
    [exists user; split; [left; reflexivity | reflexivity] | exact I ..].
Qed.

Lemma handle_quiet g ev this :
  exists this', handle g ev this = Normal this' /\ quiet (supplied [Raise g ev]) this this'.
Proof.
  destruct (handle_transition g ev this) as [token [Hn Hh]].
  eexists. split; [exact Hh|].
  eapply quiet_trans; [apply quiet_logged|].
  apply quiet_transition, next_token_made_from, Hn.
Qed.

Lemma call_all_quiet {Cb : Type} new (f : Cb -> OidcClient -> Completion OidcClient) :
  (forall cb this, exists this', f cb this = Normal this' /\ quiet new this this') ->
  forall cbs this, exists this', call_all f cbs this = Normal this' /\ quiet new this this'.
Proof.
  intros Hf cbs. induction cbs as [| cb cbs IH]; intros this; cbn.
  - eexists. split; [reflexivity | apply quiet_refl].
  - destruct (Hf cb this) as [this1 [H1 Hq1]]. rewrite H1. cbn.
    destruct (IH this1) as [this2 [H2 Hq2]].
    exists this2. split; [exact H2 | eapply quiet_trans; eassumption].
Qed.

(** A handler that carries no user gives the slot nothing new. *)
Lemma handle_quiet_nil g ev new this :
  supplied [Raise g ev] = [] ->
  exists this', handle g ev this = Normal this' /\ quiet new this this'.
Proof.
  intros Hnil. destruct (handle_quiet g ev this) as [this' [Hh Hq]].
  exists this'. split; [exact Hh|].
  eapply quiet_incl; [|exact Hq]. rewrite Hnil. apply incl_nil_l.
Qed.

Lemma raise_quiet g ev this :
  exists this', raise g ev this = Normal this' /\ quiet (supplied [Raise g ev]) this this'.
Proof.
  unfold raise. destruct (_userManager this) as [um |].
  - destruct ev as [user | e | | | ]; apply call_all_quiet; intros cb this0; destruct cb;
      first [ apply (handle_quiet g (UserLoaded user))
            | apply (handle_quiet g (SilentRenewError e))
            | apply (handle_quiet_nil g AccessTokenExpired); reflexivity
            | apply (handle_quiet_nil g UserUnloaded); reflexivity
            | apply (handle_quiet_nil g UserSignedOut); reflexivity ].
  - eexists. split; [reflexivity | apply quiet_refl].
Qed.

Lemma getUser_then_quiet g r this :
  exists this',
    getUser_then g r this = Normal this' /\
    quiet (supplied [Settle_getUser g r]) this this'.
Proof.
  destruct r as [[user |] | e]; cbn [getUser_then].
  - destruct (Oidc.expired user) eqn:He; cbn [negb].
    + apply (handle_quiet_nil g AccessTokenExpired). reflexivity.
    + destruct (handle_quiet g (UserLoaded user) this) as [this' [Hh Hq]].
      exists this'. split; [exact Hh|].
      eapply quiet_incl; [|exact Hq]. cbn. rewrite He. apply incl_refl.
  - apply (handle_quiet_nil g AccessTokenExpired). reflexivity.
  - apply (handle_quiet_nil g (SilentRenewError e)). reflexivity.
Qed.

(** One step with an engine attached: the navigations it adds, and where
    the values it stores or delivers come from. *)
Lemma after_navigation a this um :
  _userManager this = Some um ->
  location_replace (after a this) = (location_replace this ++ navigations [a])%list /\
  (forall users, incl (supplied [a]) users ->
     all_from users this -> all_from users (after a this)).
Proof.
  intros Hu.
  destruct a as [ | | | g ev | g r | g r]; unfold after, perform.
  - destruct this as [o ? ? ? ? ?]. cbn in Hu. subst o. cbn.
    rewrite app_nil_r. split; [reflexivity | tauto].
  - destruct this as [o ? ? ? ? ?]. cbn in Hu. subst o. cbn.
    rewrite app_nil_r. split; [reflexivity | tauto].
  - destruct this as [o ? ? ? ? ?]. cbn in Hu. subst o.
    rewrite dispose_attached. cbn. rewrite app_nil_r. split; [reflexivity | tauto].
  - destruct (raise_quiet g ev this) as [this' [-> [Hl Hm]]].
    cbn [navigations flat_map]. rewrite app_nil_r. split; assumption.
  - rewrite Hu. destruct (getUser_then_quiet g r this) as [this' [-> [Hl Hm]]].
    cbn [navigations flat_map]. rewrite app_nil_r. split; assumption.
  - rewrite Hu. destruct r as [u | e]; cbn.
    + split; [reflexivity | tauto].
    + destruct (handle_quiet_nil g (SilentRenewError e) [] this eq_refl)
        as [this' [Hh [Hl Hm]]].
      cbn in Hh. rewrite Hh. rewrite app_nil_r. split; [exact Hl|].
      intros users _. apply Hm, incl_nil_l.
Qed.

Lemma navigations_cons a acts :
  navigations (a :: acts) = (navigations [a] ++ navigations acts)%list.
Proof. unfold navigations. cbn. rewrite app_nil_r. reflexivity. Qed.

Lemma supplied_cons a acts :
  supplied (a :: acts) = (supplied [a] ++ supplied acts)%list.
Proof. unfold supplied. cbn [flat_map]. rewrite app_nil_r. reflexivity. Qed.

Lemma run_navigation acts : forall this um,
  _userManager this = Some um ->
  location_replace (run acts this) = (location_replace this ++ navigations acts)%list /\
  (forall users, incl (supplied acts) users ->
     all_from users this -> all_from users (run acts this)).
Proof.
  induction acts as [| a acts IH]; intros this um Hu.
  - cbn. rewrite app_nil_r. split; [reflexivity | tauto].
  - rewrite run_cons.
    destruct (after_navigation a this um Hu) as [Hl Hm].
    pose proof (after_engine_kept a this) as Hk. rewrite Hu in Hk.
    destruct (_userManager (after a this)) as [um' |] eqn:Hu'; [|contradiction].
    destruct (IH (after a this) um' Hu') as [Hl' Hm'].
    split.
    + rewrite Hl', Hl, <- app_assoc, <- navigations_cons. reflexivity.
    + intros users Hi Ha. rewrite supplied_cons in Hi.
      apply incl_app_inv in Hi. destruct Hi as [Hi1 Hi2].
      apply Hm'; [exact Hi2|]. apply Hm; assumption.
Qed.

Lemma Forall_navigations acts : Forall (fun url => url = "/") (navigations acts).
Proof.
  induction acts as [| a acts IH]; [constructor|].
  rewrite navigations_cons. apply Forall_app. split; [|exact IH].
  destruct a as [ | | | | | g [u | e]]; cbn; repeat constructor.
Qed.

(** X10.  The client navigates only to the application root, and only on
    the fulfilment of a redirect callback: in a lifetime whose setup
    succeeds there is one navigation to "/" for each fulfilled callback and
    no other; methods, events, the initial query and rejected callbacks
    never navigate. *)
Theorem navigation_only_on_fulfilled_callback (before between afterwards : list Action)
    (g : Globals) (url : string) :
  location_replace (lifetime before g (Fulfilled url) None between afterwards) =
    navigations (between ++ afterwards) /\
  Forall (fun target => target = "/")
    (location_replace (lifetime before g (Fulfilled url) None between afterwards)).
Proof.
  assert (H : location_replace (lifetime before g (Fulfilled url) None between afterwards) =
              navigations (between ++ afterwards)).
  { destruct (lifetime_success before g url between afterwards) as [st [_ ->]].
    cbn [location_replace resolve].
    eapply (run_navigation (between ++ afterwards) (attached g st)). reflexivity. }
  split; [exact H|]. rewrite H. apply Forall_navigations.
Qed.

(** X11.  Whatever the slot holds, and whatever was ever delivered, is
    absence or the Credential the factory makes from a raw user the engine
    itself supplied after it was attached: the user of a user-loaded event
    it raised, or the unexpired user its initial query answered with.  No
    other token gets into the slot or to the listeners. *)
Theorem credentials_come_from_engine (before between afterwards : list Action)
    (g : Globals) (discoverUrl : Settled string) (failure : option Error) :
  made_from (supplied (between ++ afterwards))
    (accessToken (lifetime before g discoverUrl failure between afterwards)) /\
  Forall (fun r => made_from (supplied (between ++ afterwards)) (delivered r))
    (onUserStateChanged (lifetime before g discoverUrl failure between afterwards)).
Proof.
  destruct discoverUrl as [url | e]; [destruct failure as [e |]|].
  - rewrite lifetime_failure; [|right; exists e; reflexivity].
    split; [exact I | constructor].
  - destruct (lifetime_success before g url between afterwards) as [st [_ ->]].
    unfold accessToken. cbn [_accessToken onUserStateChanged resolve].
    eapply (run_navigation (between ++ afterwards) (attached g st));
      [reflexivity | apply incl_refl |].
    split; [exact I | constructor].
  - rewrite lifetime_failure; [|left; exists e; reflexivity].
    split; [exact I | constructor].
Qed.
